(** * Geo-targeting resolution: outcodes, coverage and platform serializations

    A shallow embedding of [server/geo/outcode-targeting.cjs] and of the
    location helpers of [server/db/locations-mysql.cjs]
    ([getDistrictsByCounty], [deriveOutcodeFromPostcode]).

    Conventions of the embedding.
    - JavaScript strings are [string]s of 8-bit characters; the development
      covers the ASCII range, where [toUpperCase] only moves [a-z], and
      the white space of [trim] and of the regular expression class [\s] is
      TAB, LF, VT, FF, CR and SPACE.  [null] and [undefined] locations take
      the same branches as the empty string (both guards are truthiness
      tests), so the location is a [string].
    - The two MySQL tables are lists of rows; a query that the driver
      rejects is the [Rejected] outcome of the [result] monad.
    - A JS [Map] keyed by outcode is a [gmap string _]; only [set] and [get]
      are used on it.
    - A numeric column holds an exact rational or NULL; rounding to doubles
      plays no part in the resolver, which only passes the numbers on. *)

From stdpp Require Import gmap strings list sorting pretty.
From Stdlib Require Import Ascii QArith.

Local Open Scope nat_scope.
Set Warnings "-clear-no-such-hyp,-register-all".

(** ** Characters *)

Module Char.

Definition code (c : ascii) : nat := nat_of_ascii c.

Definition between (lo hi : nat) (c : ascii) : bool :=
  (lo <=? code c) && (code c <=? hi).

Definition is_upper : ascii → bool := between 65 90.
Definition is_lower : ascii → bool := between 97 122.
(** [\d] *)
Definition is_digit : ascii → bool := between 48 57.
(** [\s], and the characters removed by [trim] *)
Definition is_space (c : ascii) : bool :=
  between 9 13 c || (code c =? 32).
(** [[A-Z]] under the [i] flag *)
Definition is_alpha (c : ascii) : bool := is_upper c || is_lower c.
(** [[A-Z\d]] *)
Definition is_upper_or_digit (c : ascii) : bool := is_upper c || is_digit c.

Definition upper (c : ascii) : ascii :=
  if is_lower c then ascii_of_nat (code c - 32) else c.

End Char.

(** ** JavaScript string primitives *)

Fixpoint toUpperCase (s : string) : string :=
  match s with
  | "" => ""
  | String c s' => String (Char.upper c) (toUpperCase s')
  end.

Fixpoint trimStart (s : string) : string :=
  match s with
  | String c s' => if Char.is_space c then trimStart s' else s
  | "" => ""
  end.

Fixpoint trimEnd (s : string) : string :=
  match s with
  | "" => ""
  | String c s' =>
      match trimEnd s' with
      | "" => if Char.is_space c then "" else String c ""
      | t => String c t
      end
  end.

Definition trim (s : string) : string := trimEnd (trimStart s).

(** [s.replace(/\s+/g, "")] *)
Fixpoint remove_spaces (s : string) : string :=
  match s with
  | "" => ""
  | String c s' =>
      if Char.is_space c then remove_spaces s' else String c (remove_spaces s')
  end.

(** [s.indexOf(" ")]; [None] stands for -1 *)
Fixpoint indexOf_space (s : string) : option nat :=
  match s with
  | "" => None
  | String c s' =>
      if Ascii.eqb c " "%char then Some 0 else S <$> indexOf_space s'
  end.

(** [s.slice(0, n)] for [0 <= n] *)
Fixpoint slice_to (n : nat) (s : string) : string :=
  match n, s with
  | S n', String c s' => String c (slice_to n' s')
  | _, _ => ""
  end.

(** [s.includes("%")] *)
Fixpoint includes_percent (s : string) : bool :=
  match s with
  | "" => false
  | String c s' => Ascii.eqb c "%"%char || includes_percent s'
  end.

(** [xs.join(sep)] *)
Fixpoint join (sep : string) (xs : list string) : string :=
  match xs with
  | [] => ""
  | [x] => x
  | x :: rest => x +:+ sep +:+ join sep rest
  end.

(** [xs.sort(cmp)] and SQL's [ORDER BY]: a stable sort, here by insertion;
    [R x y] reads "[x] may stay before [y]". *)
Section stable_sort.
Context {A : Type} (R : relation A) `{!RelDecision R}.

Fixpoint insert_sorted (x : A) (l : list A) : list A :=
  match l with
  | [] => [x]
  | y :: l' => if decide (R x y) then x :: l else y :: insert_sorted x l'
  end.

Definition stable_sort (l : list A) : list A := foldr insert_sorted [] l.
End stable_sort.

(** ** The regular-expression fragment of the sources

    Both patterns are anchored sequences of bounded greedy repetitions of a
    character class.  [match_atoms] is the backtracking matcher for that
    fragment: each repetition first tries its largest count and gives
    characters back one at a time; the result lists the text consumed by
    each repetition. *)

Inductive atom := Rep (cls : ascii → bool) (lo hi : nat).

Fixpoint take_class (cls : ascii → bool) (n : nat) (s : string)
  : option (string * string) :=
  match n with
  | 0 => Some ("", s)
  | S n' =>
      match s with
      | String c s' =>
          if cls c then
            match take_class cls n' s' with
            | Some (m, r) => Some (String c m, r)
            | None => None
            end
          else None
      | "" => None
      end
  end.

Fixpoint first_down {A} (f : nat → option A) (lo extra : nat) : option A :=
  match f (lo + extra) with
  | Some r => Some r
  | None => match extra with
            | 0 => None
            | S e => first_down f lo e
            end
  end.

Fixpoint match_atoms (p : list atom) (s : string) : option (list string) :=
  match p with
  | [] => if decide (s = "") then Some [] else None
  | Rep cls lo hi :: p' =>
      first_down
        (λ n, match take_class cls n s with
              | Some (m, r) => cons m <$> match_atoms p' r
              | None => None
              end)
        lo (hi - lo)
  end.

(** ** server/geo/outcode-targeting.cjs: postcode parsing *)

(** [/^([A-Z]{1,2}\d{1,2}[A-Z]?)[\s]?\d[A-Z]{2}$/i] *)
Definition OUTCODE_REGEX : list atom :=
  [ Rep Char.is_alpha 1 2; Rep Char.is_digit 1 2; Rep Char.is_alpha 0 1;
    Rep Char.is_space 0 1; Rep Char.is_digit 1 1; Rep Char.is_alpha 2 2 ].

(** Capture group 1 spans the first three repetitions. *)
Definition group1 (m : list string) : option string :=
  match m with
  | a :: b :: c :: _ => Some (a +:+ b +:+ c)
  | _ => None
  end.

Definition extractOutcodeFromPostcode (input : string) : option string :=
  if decide (input = "") then None
  else
    let s := toUpperCase (trim input) in
    match_atoms OUTCODE_REGEX s ≫= group1.

(** ** server/db/locations-mysql.cjs: the feed path's derivation *)

(** [/^([A-Z]{1,2}\d[A-Z\d]?)(\d[A-Z]{2})$/] *)
Definition DERIVE_REGEX : list atom :=
  [ Rep Char.is_upper 1 2; Rep Char.is_digit 1 1;
    Rep Char.is_upper_or_digit 0 1;
    Rep Char.is_digit 1 1; Rep Char.is_upper 2 2 ].

Definition deriveOutcodeFromPostcode (postcode : string) : string :=
  if decide (postcode = "") then ""
  else
    let raw := trim (toUpperCase postcode) in
    let noSpace := remove_spaces raw in
    match match_atoms DERIVE_REGEX noSpace ≫= group1 with
    | Some oc => oc
    | None =>
        match indexOf_space raw with
        | Some (S sp) => slice_to (S sp) raw
        | _ =>
            if 3 <? String.length raw
            then slice_to (String.length raw - 3) raw
            else raw
        end
    end.

(** ** The reference dataset

    [os_open_names] holds place records, [postcode_district_stats] the
    per-outcode statistics.  A column is [None] where the row stores NULL.
    The driver hands a numeric column to JavaScript as a number, or as
    [null] for NULL. *)

Record place_row := {
  POSTCODE_DISTRICT : option string;
  COUNTY_UNITARY : option string;
  DISTRICT_BOROUGH : option string;
  REGION : option string
}.

Record stats_row := {
  st_outcode : string;
  st_approx_radius_km : option Q;
  st_approx_diameter_km : option Q;
  st_centroid_easting_m : option Q;
  st_centroid_northing_m : option Q
}.

Record database := {
  os_open_names : list place_row;
  postcode_district_stats : list stats_row
}.

(** A pool either serves its queries from the tables, or rejects every
    query; [ping_ok] tells whether the connectivity check of [ensurePool]
    still passes on a pool that rejects queries. *)
Inductive pool :=
| Live (db : database)
| Broken (ping_ok : bool).

(** Outcome of an [async] function: resolved with a value, or rejected. *)
Inductive result (A : Type) :=
| Ok (a : A)
| Rejected (reason : string).
Arguments Ok {A} a.
Arguments Rejected {A} reason.

#[global] Instance result_ret : MRet result := λ A a, Ok a.
#[global] Instance result_bind : MBind result := λ A B k m,
  match m with
  | Ok a => k a
  | Rejected e => Rejected e
  end.

(** *** String comparison inside MySQL

    Text columns compare through their collation, which the table
    definitions fix; those are not part of the sources. *)

(** Modelled from the spec: the collation of the text columns of
    [os_open_names] and [postcode_district_stats].  The spec has fields
    matched as a case-insensitive substring, which is what MySQL's default
    collations give: two characters are equal when they have the same
    weight, here the upper-cased character; comparisons do not pad with
    spaces. *)
Definition weight (c : ascii) : ascii := Char.upper c.
Definition collate (s : string) : string := toUpperCase s.
Definition coll_eqb (a b : string) : bool := bool_decide (collate a = collate b).

(** [any_suffix f s]: [f] accepts some suffix of [s] (what remains after
    the text taken by a [%]). *)
Fixpoint any_suffix (f : string → bool) (s : string) : bool :=
  f s || match s with
         | String _ s' => any_suffix f s'
         | "" => false
         end.

Definition one_char (f : string → bool) (s : string) : bool :=
  match s with
  | String _ s' => f s'
  | "" => false
  end.

Definition literal (c : ascii) (f : string → bool) (s : string) : bool :=
  match s with
  | String x s' => bool_decide (weight c = weight x) && f s'
  | "" => false
  end.

(** [s LIKE p]: [%] takes any run of characters, [_] any one character, a
    backslash makes the next pattern character literal (a final backslash
    stands for itself). *)
Fixpoint like (p : string) : string → bool :=
  match p with
  | "" => λ s, bool_decide (s = "")
  | String c p' =>
      if Ascii.eqb c "%"%char then any_suffix (like p')
      else if Ascii.eqb c "_"%char then one_char (like p')
      else if Ascii.eqb c "\"%char then
        match p' with
        | String e p'' => literal e (like p'')
        | "" => literal c (like p')
        end
      else literal c (like p')
  end.

(** [v LIKE p] on a nullable column: NULL is not a match. *)
Definition like_col (p : string) (v : option string) : bool :=
  from_option (like p) false v.

(** [SELECT DISTINCT col]: one row for each group of values equal under
    the collation (the first one met; NULL is a group of its own).  [key]
    gives the collation key of a row's value. *)
Definition coll_key (v : option string) : option string := collate <$> v.

Fixpoint distinct {A} (key : A → option string) (seen : list (option string))
    (l : list A) : list A :=
  match l with
  | [] => []
  | x :: l' =>
      if bool_decide (key x ∈ seen) then distinct key seen l'
      else x :: distinct key (key x :: seen) l'
  end.

(** [ORDER BY col]: ascending under the collation, NULL first. *)
Definition key_le (a b : option string) : Prop :=
  match a, b with
  | None, _ => True
  | Some _, None => False
  | Some x, Some y => String.le x y
  end.

#[global] Instance key_le_dec : RelDecision key_le.
Proof. intros [a|] [b|]; simpl; apply _. Defined.

Definition by_key {A} (key : A → option string) : relation A :=
  λ a b, key_le (key a) (key b).

#[global] Instance by_key_dec {A} (key : A → option string) :
  RelDecision (by_key key).
Proof. intros a b. unfold by_key. apply _. Defined.

#[global] Instance by_key_total {A} (key : A → option string) :
  Total (by_key key).
Proof.
  intros a b. unfold by_key. destruct (key a) as [x|], (key b) as [y|]; simpl;
    auto. apply total, _.
Qed.

Definition order_by {A} (key : A → option string) (l : list A) : list A :=
  stable_sort (by_key key) l.

(** The query of [expandAreaToOutcodes], with its three parameters bound
    to [location]; each field is matched against
    [CONCAT('%', ?, '%')]. *)
Definition area_pattern (location : string) : string :=
  "%" +:+ location +:+ "%".

Definition area_row_matches (location : string) (r : place_row) : bool :=
  let p := area_pattern location in
  like_col p (COUNTY_UNITARY r) || like_col p (DISTRICT_BOROUGH r)
  || like_col p (REGION r).

Definition area_row_selected (location : string) (r : place_row) : bool :=
  match POSTCODE_DISTRICT r with
  | Some d => bool_decide (d ≠ "") && area_row_matches location r
  | None => false
  end.

(** The [POSTCODE_DISTRICT] column of the rows that pass the WHERE clause. *)
Definition area_candidates (location : string) (db : database) : list string :=
  omap (λ r, if area_row_selected location r then POSTCODE_DISTRICT r else None)
       (os_open_names db).

Definition select_area_outcodes (location : string) (db : database)
  : list string :=
  let key d := Some (collate d) in
  order_by key (distinct key [] (area_candidates location db)).

(** The query of [fetchOutcodeStats]: [WHERE outcode IN (?, ..., ?)]. *)
Definition select_stats (outcodes : list string) (db : database)
  : list stats_row :=
  filter (λ r, existsb (coll_eqb (st_outcode r)) outcodes)
         (postcode_district_stats db).

(** The query of [getDistrictsByCounty]:
    [WHERE UPPER(COUNTY_UNITARY) LIKE UPPER(?)]. *)
Definition select_county_districts (needle : string) (db : database)
  : list (option string) :=
  order_by coll_key (distinct coll_key []
    (POSTCODE_DISTRICT <$>
       filter (λ r, like_col (toUpperCase needle)
                      (toUpperCase <$> COUNTY_UNITARY r))
              (os_open_names db))).

(** [pool.execute(sql, params)] / [pool.query(sql, params)] *)
Definition execute {A} (p : pool) (q : database → A) : result A :=
  match p with
  | Live db => Ok (q db)
  | Broken _ => Rejected "query failed"
  end.

(** ** server/geo/outcode-targeting.cjs: the resolver *)

(** [Number(v)] for a value read from a numeric column: a number is kept,
    [null] becomes 0. *)
Definition Number (v : option Q) : Q := default 0%Q v.

Record coverage_item := {
  outcode : string;
  approx_radius_km : Q;
  approx_diameter_km : Q;
  centroid_easting_m : Q;
  centroid_northing_m : Q
}.

Definition item_of_row (r : stats_row) : coverage_item :=
  {| outcode := st_outcode r;
     approx_radius_km := Number (st_approx_radius_km r);
     approx_diameter_km := Number (st_approx_diameter_km r);
     centroid_easting_m := Number (st_centroid_easting_m r);
     centroid_northing_m := Number (st_centroid_northing_m r) |}.

Definition expandAreaToOutcodes (p : pool) (location : string)
  : result (list string) :=
  rows ← execute p (select_area_outcodes location);
  mret rows.

(** [map.set(r.outcode, {...})] *)
Definition stats_step (m : gmap string coverage_item) (r : stats_row)
  : gmap string coverage_item :=
  <[st_outcode r := item_of_row r]> m.

Definition fetchOutcodeStats (p : pool) (outcodes : list string)
  : result (gmap string coverage_item) :=
  if decide (outcodes = []) then mret ∅
  else
    rows ← execute p (select_stats outcodes);
    mret (foldl stats_step ∅ rows).

(** [Array.from(new Set(xs))]: the distinct elements in order of first
    occurrence. *)
Definition set_add (acc : list string) (x : string) : list string :=
  if decide (x ∈ acc) then acc else acc ++ [x].

Definition array_from_set (xs : list string) : list string :=
  foldl set_add [] xs.

(** [xs.sort()]: ascending by code units. *)
Definition sort (xs : list string) : list string := stable_sort String.le xs.

(** [a.outcode.localeCompare(b.outcode) <= 0].  The locale's collation is
    taken to be the ordinal one, with which it agrees on outcodes made of
    upper-case letters and digits. *)
Definition outcode_le (a b : coverage_item) : Prop :=
  String.le (outcode a) (outcode b).

#[global] Instance outcode_le_dec : RelDecision outcode_le.
Proof. intros a b. unfold outcode_le. apply _. Defined.

#[global] Instance outcode_le_total : Total outcode_le.
Proof. intros a b. unfold outcode_le. apply total, _. Qed.

Record platform_serializations_t := {
  meta_bulk_text : string;
  tiktok_postal_codes : list string;
  linkedin_postal_codes : list string;
  pinterest_postal_codes : list string;
  google_ads_postal_codes : list string
}.

Record targeting := {
  postal_codes : list string;
  postal_code_system : string;
  coverage : list coverage_item;
  platform_serializations : platform_serializations_t
}.

Definition newline : string := String "010"%char "".

(** Lines 110-128 of the resolver: deduplicate, sort and package. *)
Definition serialize (outcodes : list string) (statsList : list coverage_item)
  : targeting :=
  let uniq := sort (array_from_set outcodes) in
  let metaBulkText := join newline uniq in
  {| postal_codes := uniq;
     postal_code_system := "GB_POSTCODE_DISTRICT";
     coverage := stable_sort outcode_le statsList;
     platform_serializations :=
       {| meta_bulk_text := metaBulkText;
          tiktok_postal_codes := uniq;
          linkedin_postal_codes := uniq;
          pinterest_postal_codes := uniq;
          google_ads_postal_codes := uniq |} |}.



(** Truthiness of a string-or-null value. *)
Definition truthy (v : option string) : bool :=
  match v with
  | Some s => bool_decide (s ≠ "")
  | None => false
  end.

(** Steps 1 and 2 of the resolver: the outcodes and the stats entries that
    are handed to the packaging step. *)
Definition collect_postcode (p : pool) (outcodeFromPC : string)
  : result (list string * list coverage_item) :=
  stats ← fetchOutcodeStats p [outcodeFromPC];
  match stats !! outcodeFromPC with
  | Some item => mret ([outcodeFromPC], [item])
  | None => mret ([outcodeFromPC], [])
  end.

Definition collect_area (p : pool) (jobLocation : string)
  : result (list string * list coverage_item) :=
  if truthy (Some jobLocation) && truthy (Some (trim jobLocation)) then
    let area := trim jobLocation in
    expanded ← expandAreaToOutcodes p area;
    if decide (expanded = []) then mret ([], [])
    else
      stats ← fetchOutcodeStats p expanded;
      mret (expanded, omap (λ oc, stats !! oc) expanded)
  else mret ([], []).

Definition collect (p : pool) (jobLocation : string)
  : result (list string * list coverage_item) :=
  let outcodeFromPC := extractOutcodeFromPostcode jobLocation in
  if truthy outcodeFromPC
  then collect_postcode p (default "" outcodeFromPC)
  else collect_area p jobLocation.

Definition resolveTargeting (p : pool) (jobLocation : string)
  : result targeting :=
  '(outcodes, statsList) ← collect p jobLocation;
  mret (serialize outcodes statsList).

(** ** server/db/locations-mysql.cjs: county lookup *)

(** [ensurePool()]: the pool, or [null] when the connectivity check fails. *)
Definition ensurePool (p : pool) : option pool :=
  match p with
  | Live _ => Some p
  | Broken ping_ok => if ping_ok then Some p else None
  end.

(** The LIKE pattern handed to the query: a text that already holds a [%]
    is used as it is. *)
Definition county_needle (countyLike : string) : string :=
  if includes_percent countyLike then trim countyLike
  else "%" +:+ trim countyLike +:+ "%".

(** [String(v).toUpperCase()] of a nullable column *)
Definition upper_of_column (v : option string) : string :=
  toUpperCase (default "null" v).

Definition getDistrictsByCounty (p : pool) (countyLike : string)
  : list string :=
  match ensurePool p with
  | None => []
  | Some p =>
      if negb (truthy (Some countyLike) && truthy (Some (trim countyLike)))
      then []
      else
        match execute p (select_county_districts (county_needle countyLike)) with
        | Ok rows => upper_of_column <$> rows
        | Rejected _ => []
        end
  end.

(** ** Vocabulary of the specification *)

(** [t] occurs in [s] as a substring, letter case apart. *)
Definition ci_substring (t s : string) : Prop :=
  ∃ pre mid post, s = pre +:+ mid +:+ post ∧ toUpperCase mid = toUpperCase t.

(** Executable forms of the same test. *)
Fixpoint prefix_ci (t s : string) : bool :=
  match t, s with
  | "", _ => true
  | String c t', String x s' =>
      bool_decide (Char.upper c = Char.upper x) && prefix_ci t' s'
  | String _ _, "" => false
  end.

Definition contains_ci (t s : string) : bool := any_suffix (prefix_ci t) s.

(** One of the three administrative fields of the row contains [t]. *)
Definition field_contains (t : string) (r : place_row) : Prop :=
  ∃ v, (COUNTY_UNITARY r = Some v ∨ DISTRICT_BOROUGH r = Some v
        ∨ REGION r = Some v) ∧ ci_substring t v.

(** The text holds none of the characters that LIKE reads specially. *)
Fixpoint no_wildcard (t : string) : bool :=
  match t with
  | "" => true
  | String c t' =>
      negb (Ascii.eqb c "%"%char) && negb (Ascii.eqb c "_"%char)
      && negb (Ascii.eqb c "\"%char) && no_wildcard t'
  end.

(** Every character of the string is in the class. *)
Fixpoint all_chars (cls : ascii → bool) (s : string) : bool :=
  match s with
  | "" => true
  | String c s' => cls c && all_chars cls s'
  end.

(** The text [g] is an admissible match of the repetition. *)
Definition fits (a : atom) (g : string) : Prop :=
  match a with
  | Rep cls lo hi =>
      all_chars cls g = true ∧ lo ≤ String.length g ≤ lo + (hi - lo)
  end.

(** [gs.join("")] *)
Definition concat_all (gs : list string) : string :=
  foldr String.append "" gs.

(** A full postcode as the spec describes it: one or two letters, one or two
    digits, an optional letter, optional white space, then the incode (a
    digit and two letters); [area +:+ district +:+ sub] is its outcode
    portion. *)
Record postcode_parts := {
  pc_area : string;
  pc_district : string;
  pc_sub : string;
  pc_gap : string;
  pc_incode : string
}.

Definition postcode_text (q : postcode_parts) : string :=
  pc_area q +:+ pc_district q +:+ pc_sub q +:+ pc_gap q +:+ pc_incode q.

Definition postcode_outcode (q : postcode_parts) : string :=
  pc_area q +:+ pc_district q +:+ pc_sub q.

Definition well_formed_postcode (q : postcode_parts) : bool :=
  all_chars Char.is_alpha (pc_area q)
  && bool_decide (1 ≤ String.length (pc_area q) ≤ 2)
  && all_chars Char.is_digit (pc_district q)
  && bool_decide (1 ≤ String.length (pc_district q) ≤ 2)
  && all_chars Char.is_alpha (pc_sub q)
  && bool_decide (String.length (pc_sub q) ≤ 1)
  && all_chars Char.is_space (pc_gap q)
  && bool_decide (String.length (pc_gap q) ≤ 1)
  && match pc_incode q with
     | String d (String l1 (String l2 "")) =>
         Char.is_digit d && Char.is_alpha l1 && Char.is_alpha l2
     | _ => false
     end.

(** The postcode with every part upper-cased. *)
Definition upper_parts (q : postcode_parts) : postcode_parts :=
  {| pc_area := toUpperCase (pc_area q);
     pc_district := toUpperCase (pc_district q);
     pc_sub := toUpperCase (pc_sub q);
     pc_gap := toUpperCase (pc_gap q);
     pc_incode := toUpperCase (pc_incode q) |}.

(** Letters and digits, the characters an outcode is made of. *)
Definition is_alnum (c : ascii) : bool := Char.is_alpha c || Char.is_digit c.
Definition not_space (c : ascii) : bool := negb (Char.is_space c).
Definition not_lower (c : ascii) : bool := negb (Char.is_lower c).

(** A bare outcode: the outcode portion of the postcode pattern alone. *)
Definition OUTCODE_ONLY : list atom :=
  [ Rep Char.is_alpha 1 2; Rep Char.is_digit 1 2; Rep Char.is_alpha 0 1 ].

Definition bare_outcode (s : string) : bool :=
  bool_decide (is_Some (match_atoms OUTCODE_ONLY s)).

(** ** Sample datasets *)

Definition place (district county : string) : place_row :=
  {| POSTCODE_DISTRICT := Some district; COUNTY_UNITARY := Some county;
     DISTRICT_BOROUGH := None; REGION := None |}.

Definition stats (oc : string) (radius diameter : option Q) : stats_row :=
  {| st_outcode := oc; st_approx_radius_km := radius;
     st_approx_diameter_km := diameter;
     st_centroid_easting_m := Some 260000%Q;
     st_centroid_northing_m := Some 670000%Q |}.

Definition no_rows : database :=
  {| os_open_names := []; postcode_district_stats := [] |}.

(** The end-to-end scenario of the spec: three outcodes tagged "Ayrshire",
    statistics for two of them. *)
Definition ayrshire_db : database :=
  {| os_open_names :=
       [ place "KA11" "Ayrshire"; place "G64" "Ayrshire";
         place "KA10" "Ayrshire" ];
     postcode_district_stats :=
       [ stats "KA10" (Some 4.5%Q) (Some 9%Q);
         stats "KA11" (Some 3%Q) (Some 6%Q) ] |}.

(** A table whose only row stores its district in lower case with a
    trailing space. *)
Definition untidy_db : database :=
  {| os_open_names := [ place "ka10 " "Ayrshire" ];
     postcode_district_stats := [] |}.

(** A county that holds the searched text, but not at its start. *)
Definition south_ayrshire_db : database :=
  {| os_open_names := [ place "KA7" "South Ayrshire" ];
     postcode_district_stats := [] |}.

(** Statistics with a NULL radius and a negative diameter. *)
Definition sparse_stats_db : database :=
  {| os_open_names := [ place "G64" "East Dunbartonshire" ];
     postcode_district_stats := [ stats "G64" None (Some (-2)%Q) ] |}.

(** * The other functions of the two server files *)

(** ** server/db/locations-mysql.cjs: rows by district prefix *)

(** The query of [getByDistrictPrefix]:
    [WHERE UPPER(POSTCODE_DISTRICT) LIKE CONCAT(UPPER(?), '%') LIMIT 2000].
    The query has no ORDER BY; rows are taken in table order. *)
Definition prefix_row_matches (prefix : string) (r : place_row) : bool :=
  like_col (toUpperCase prefix +:+ "%") (toUpperCase <$> POSTCODE_DISTRICT r).

Definition select_by_prefix (prefix : string) (db : database)
  : list place_row :=
  take 2000 (filter (λ r, prefix_row_matches prefix r) (os_open_names db)).

Definition getByDistrictPrefix (p : pool) (prefix : string) : list place_row :=
  match ensurePool p with
  | None => []
  | Some p =>
      if negb (truthy (Some prefix) && truthy (Some (trim prefix))) then []
      else
        match execute p (select_by_prefix (trim prefix)) with
        | Ok rows => rows
        | Rejected _ => []
        end
  end.

(** ** server/server.cjs: utilities *)

Definition lower_char (c : ascii) : ascii :=
  if Char.is_upper c then ascii_of_nat (Char.code c + 32) else c.

Fixpoint toLowerCase (s : string) : string :=
  match s with
  | "" => ""
  | String c s' => String (lower_char c) (toLowerCase s')
  end.

(** [a || b] where [a] is a string or [undefined]/[null] ([None]). *)
Definition or_else (a : option string) (b : string) : string :=
  match a with
  | Some s => if decide (s = "") then b else s
  | None => b
  end.

Definition mapListingTypeToCredit (listingType : option string) : string :=
  let v := trim (toLowerCase (or_else listingType "")) in
  if bool_decide (v = "premiumplus") || bool_decide (v = "premium-plus")
     || bool_decide (v = "premier position")
     || bool_decide (v = "premierposition")
     || bool_decide (v = "premium_plus")
  then "Premium Plus" else "Premium".

(** [s.replace(/c/g, rep)] for a single character [c]. *)
Fixpoint replace_char (c : ascii) (rep : string) (s : string) : string :=
  match s with
  | "" => ""
  | String x s' =>
      if Ascii.eqb x c then rep +:+ replace_char c rep s'
      else String x (replace_char c rep s')
  end.

Definition quote_char : ascii := "034"%char.

Definition xmlEscape (s : string) : string :=
  replace_char "'"%char "&apos;"
    (replace_char quote_char "&quot;"
       (replace_char ">"%char "&gt;"
          (replace_char "<"%char "&lt;"
             (replace_char "&"%char "&amp;" s)))).

(** *** Settings, as far as the server reads them *)

Record channel_settings := {
  feedFormat : option string
}.

Record settings := {
  global_sourceFilter : option string;
  global_outputFormat : option string;
  channels : gmap string channel_settings
}.


(** *** Jobs *)

Record job := {
  job_id : string;
  job_title : string;
  job_location : string;
  job_recruiter : string;
  job_eligibleDate : string;
  job_source : string;
  job_credit : string;
  job_url : option string
}.

(** The source filter of [/api/jobs] and [handleFeed]: a blank filter keeps
    every job. *)
Definition filter_by_source (st : settings) (all : list job) : list job :=
  let sourceFilter := trim (or_else (global_sourceFilter st) "") in
  if decide (sourceFilter = "") then all
  else filter (λ j, toLowerCase (job_source j) = toLowerCase sourceFilter) all.

(** A job of the upstream payload; a field is [None] where the record has
    none (or [null]); the fields that are read hold text. *)
Record raw_recruiter := {
  displayName : option string
}.

Record raw_job := {
  rj_id : option string;
  rj_jobTitleDisplay : option string;
  rj_jobTitle : option string;
  rj_recruiter : option raw_recruiter;
  rj_jobLocation : option string;
  rj_locationTree : option (list string);
  rj_created : option string;
  rj_listingType : option string;
  rj_source : option string;
  rj_url : option string
}.

Section dates.
(** The clock and the date parser of the host: [todayISO()], and
    [new Date(s).toISOString().slice(0,10)], which is [None] where
    [toISOString] throws on an invalid date. *)
Variable todayISO : string.
Variable iso_date_of : string → option string.

Definition toISODate (input : option string) (fallbackToday : bool) : string :=
  let fallback := if fallbackToday then todayISO else "" in
  match input with
  | None => fallback
  | Some s =>
      if decide (s = "") then fallback
      else default fallback (iso_date_of s)
  end.

Definition adapt_job (i : nat) (j : raw_job) : job :=
  {| job_id := default ("ext-" +:+ pretty (i + 1)) (rj_id j);
     job_title :=
       trim (or_else (rj_jobTitleDisplay j)
               (or_else (rj_jobTitle j) "Untitled role"));
     job_location :=
       or_else (rj_jobLocation j)
         (match rj_locationTree j with
          | Some tree => join ", " tree
          | None => "UK"
          end);
     job_recruiter :=
       match rj_recruiter j ≫= displayName with
       | Some d => if decide (d = "") then "Jobs in Care" else d
       | None => "Jobs in Care"
       end;
     job_eligibleDate := toISODate (rj_created j) true;
     job_source := or_else (rj_source j) "user";
     job_credit := mapListingTypeToCredit (rj_listingType j);
     job_url := match rj_url j with
                | Some u => if decide (u = "") then None else Some u
                | None => None
                end |}.

(** [raw_jobs] is [raw.jobs] when that is an array. *)
Definition adaptFromJobsInCare (raw_jobs : option (list raw_job)) : list job :=
  imap adapt_job (default [] raw_jobs).
End dates.

(** *** Values

    A value as the payload or a request can hold it.  A number is carried as
    the text that [String] gives for it.  [js_String] is [String(v)]: an
    array is its elements joined by commas, with [null] and [undefined]
    elements as the empty text; an object is "[object Object]". *)
Inductive json :=
  | JUndefined
  | JNull
  | JBool (b : bool)
  | JNumber (text : string)
  | JString (s : string)
  | JArray (items : list json)
  | JObject (fields : list (string * json)).

Fixpoint js_String (v : json) : string :=
  match v with
  | JUndefined => "undefined"
  | JNull => "null"
  | JBool b => if b then "true" else "false"
  | JNumber text => text
  | JString s => s
  | JArray items =>
      join ","
        (List.map (λ x, match x with
                        | JUndefined | JNull => ""
                        | _ => js_String x
                        end) items)
  | JObject _ => "[object Object]"
  end.

(** [xmlEscape(s)] on any value: [String(s)] comes first, the five
    replacements are made in the resulting text. *)
Definition xmlEscape_value (v : json) : string := xmlEscape (js_String v).

(** *** The XML feed *)

(** An item of the feed.  [handleFeed] copies the fields from the adapted
    jobs, where they are texts; the document is modelled for whatever value
    a field holds. *)
Record feed_item := {
  it_id : json;
  it_title : json;
  it_location : json;
  it_recruiter : json;
  it_created : json;
  it_expires : json;
  it_credit : json;
  it_url : json;
  it_source : json
}.

Definition element (indent tag : string) (value : json) : string :=
  indent +:+ "<" +:+ tag +:+ ">" +:+ xmlEscape_value value
  +:+ "</" +:+ tag +:+ ">".

Definition render_job (it : feed_item) : string :=
  join newline
    [ "  <job>";
      element "    " "id" (it_id it);
      element "    " "title" (it_title it);
      element "    " "location" (it_location it);
      element "    " "recruiter" (it_recruiter it);
      element "    " "created" (it_created it);
      element "    " "expires" (it_expires it);
      element "    " "credit" (it_credit it);
      element "    " "url" (it_url it);
      element "    " "source" (it_source it);
      "  </job>" ].

Definition dq : string := String quote_char "".

(** The document of [handleFeed] for the format xml; [generatedAt] is the
    time stamp of the response. *)
Definition render_xml (channelId generatedAt : string)
    (items : list feed_item) : string :=
  join newline
    ([ "<?xml version=" +:+ dq +:+ "1.0" +:+ dq +:+ " encoding=" +:+ dq
       +:+ "UTF-8" +:+ dq +:+ "?>";
       "<jobs channel=" +:+ dq +:+ xmlEscape channelId +:+ dq
       +:+ " generatedAt=" +:+ dq +:+ xmlEscape generatedAt +:+ dq +:+ ">" ]
     ++ (render_job <$> items) ++ [ "</jobs>" ]).

(** ** Vocabulary for the properties of these functions *)

(** What [xmlEscape] writes for one character. *)
Definition xml_entity (c : ascii) : string :=
  if Ascii.eqb c "&"%char then "&amp;"
  else if Ascii.eqb c "<"%char then "&lt;"
  else if Ascii.eqb c ">"%char then "&gt;"
  else if Ascii.eqb c quote_char then "&quot;"
  else if Ascii.eqb c "'"%char then "&apos;"
  else String c "".

Fixpoint escape_each (s : string) : string :=
  match s with
  | "" => ""
  | String c s' => xml_entity c +:+ escape_each s'
  end.

(** The five characters that [xmlEscape] replaces. *)
Definition xml_special (c : ascii) : bool :=
  Ascii.eqb c "&"%char || Ascii.eqb c "<"%char || Ascii.eqb c ">"%char
  || Ascii.eqb c quote_char || Ascii.eqb c "'"%char.

Fixpoint count_char (c : ascii) (s : string) : nat :=
  match s with
  | "" => 0
  | String x s' => (if Ascii.eqb x c then 1 else 0) + count_char c s'
  end.

(** [t] is a leading part of [s], letter case apart. *)
Definition ci_prefix (t s : string) : Prop :=
  ∃ mid post, s = mid +:+ post ∧ toUpperCase mid = toUpperCase t.

(** A table for the prefix lookup. *)
Definition glasgow_db : database :=
  {| os_open_names :=
       [ place "G64" "East Dunbartonshire"; place "g6" "Glasgow";
         place "KA10" "South Ayrshire" ];
     postcode_district_stats := [] |}.

(** An upstream record without any field, and settings whose source filter
    is written in capitals between blanks. *)
Definition bare_record : raw_job :=
  {| rj_id := None; rj_jobTitleDisplay := None; rj_jobTitle := None;
     rj_recruiter := None; rj_jobLocation := None; rj_locationTree := None;
     rj_created := None; rj_listingType := None; rj_source := None;
     rj_url := None |}.

Definition untidy_record : raw_job :=
  {| rj_id := None; rj_jobTitleDisplay := Some " Carer "; rj_jobTitle := None;
     rj_recruiter := None; rj_jobLocation := None; rj_locationTree := None;
     rj_created := None; rj_listingType := None; rj_source := Some "";
     rj_url := Some "" |}.

Definition user_filter_settings : settings :=
  {| global_sourceFilter := Some " USER "; global_outputFormat := Some "xml";
     channels := {[ "google" := {| feedFormat := Some "xml" |} ]} |}.


(** A feed item whose fields are not all texts. *)
Definition mixed_item : feed_item :=
  {| it_id := JNumber "17"; it_title := JString "Carer <nights> & days";
     it_location := JArray [JString "<Ayr>"; JNull; JString "UK"];
     it_recruiter := JObject []; it_created := JString "2025-09-01";
     it_expires := JString "2025-10-13"; it_credit := JString "Premium";
     it_url := JString ""; it_source := JBool true |}.

(** * Properties *)

(** ** Sample runs *)

Example extract_G64 :
  extractOutcodeFromPostcode "g64 1ab" = Some "G64"
  ∧ extractOutcodeFromPostcode "G641AB" = Some "G64"
  ∧ extractOutcodeFromPostcode "  EH1 1BB " = Some "EH1"
  ∧ extractOutcodeFromPostcode "SW1A 2AA" = Some "SW1A"
  ∧ extractOutcodeFromPostcode "KA10" = None
  ∧ extractOutcodeFromPostcode "GIR 0AA" = None.
Proof. repeat split; vm_compute; reflexivity. Qed.

Example derive_samples :
  deriveOutcodeFromPostcode "g64 1ab" = "G64"
  ∧ deriveOutcodeFromPostcode "Ayrshire" = "AYRSH"
  ∧ deriveOutcodeFromPostcode "North Ayrshire" = "NORTH"
  ∧ deriveOutcodeFromPostcode "G6" = "G6".
Proof. repeat split; vm_compute; reflexivity. Qed.

(** ** Characters and strings *)

Ltac by_cases_on_char c :=
  destruct c as [[] [] [] [] [] [] [] []]; vm_compute; intuition congruence.

Lemma upper_idem c : Char.upper (Char.upper c) = Char.upper c.
Proof. by_cases_on_char c. Qed.

Lemma upper_not_lower c : Char.is_lower (Char.upper c) = false.
Proof. by_cases_on_char c. Qed.


Lemma alpha_facts c :
  Char.is_alpha c = true →
  Char.is_digit c = false ∧ Char.is_space c = false
  ∧ Char.is_alpha (Char.upper c) = true
  ∧ Char.is_upper (Char.upper c) = true
  ∧ Char.is_digit (Char.upper c) = false
  ∧ Char.is_space (Char.upper c) = false.
Proof. by_cases_on_char c. Qed.

Lemma digit_facts c :
  Char.is_digit c = true →
  Char.is_alpha c = false ∧ Char.is_space c = false
  ∧ Char.upper c = c ∧ Char.is_upper c = false.
Proof. by_cases_on_char c. Qed.

Lemma space_facts c :
  Char.is_space c = true →
  Char.is_alpha c = false ∧ Char.is_digit c = false ∧ Char.upper c = c.
Proof. by_cases_on_char c. Qed.

Lemma app_cons c s t : String c s +:+ t = String c (s +:+ t).
Proof. reflexivity. Qed.

Lemma app_empty_l s : "" +:+ s = s.
Proof. reflexivity. Qed.

Lemma app_empty_r s : s +:+ "" = s.
Proof. induction s as [|c s IH]; [done|]. by rewrite app_cons, IH. Qed.

Lemma app_assoc_str s t u : (s +:+ t) +:+ u = s +:+ t +:+ u.
Proof. induction s as [|c s IH]; [done|]. by rewrite !app_cons, IH. Qed.

Lemma length_app_str s t :
  String.length (s +:+ t) = String.length s + String.length t.
Proof. induction s as [|c s IH]; [done|]. rewrite app_cons. simpl. lia. Qed.

Lemma length_zero_str s : String.length s = 0 → s = "".
Proof. by destruct s. Qed.

Lemma toUpperCase_app s t :
  toUpperCase (s +:+ t) = toUpperCase s +:+ toUpperCase t.
Proof.
  induction s as [|c s IH]; [done|].
  rewrite app_cons. simpl. by rewrite IH.
Qed.

Lemma toUpperCase_idem s : toUpperCase (toUpperCase s) = toUpperCase s.
Proof. induction s as [|c s IH]; simpl; [done|]. by rewrite upper_idem, IH. Qed.

Lemma toUpperCase_length s : String.length (toUpperCase s) = String.length s.
Proof. induction s as [|c s IH]; simpl; congruence. Qed.

Lemma all_chars_app cls s t :
  all_chars cls (s +:+ t) = all_chars cls s && all_chars cls t.
Proof.
  induction s as [|c s IH]; [done|].
  rewrite app_cons. simpl. rewrite IH. by destruct (cls c).
Qed.

Lemma all_chars_impl (f g : ascii → bool) s :
  (∀ c, f c = true → g c = true) → all_chars f s = true → all_chars g s = true.
Proof.
  intros Hfg. induction s as [|c s IH]; simpl; [done|].
  intros [Hc Hs]%andb_prop. rewrite (Hfg _ Hc). simpl. auto.
Qed.

Lemma toUpperCase_no_lower s : all_chars not_lower (toUpperCase s) = true.
Proof.
  induction s as [|c s IH]; simpl; [done|].
  unfold not_lower at 1. by rewrite upper_not_lower, IH.
Qed.


Lemma slice_to_prefix n s : ∃ rest, s = slice_to n s +:+ rest.
Proof.
  revert s. induction n as [|n IH]; intros [|c s]; simpl; eauto.
  destruct (IH s) as [rest Hrest]. exists rest.
  rewrite app_cons. by rewrite <-Hrest.
Qed.

Lemma slice_to_length n s :
  String.length (slice_to n s) = n `min` String.length s.
Proof.
  revert s. induction n as [|n IH]; intros [|c s]; simpl; auto.
Qed.

(** ** The stable sort *)

Section stable_sort_facts.
Context {A : Type} (R : relation A) `{!RelDecision R}.

Lemma insert_sorted_perm x l : insert_sorted R x l ≡ₚ x :: l.
Proof.
  induction l as [|y l IH]; simpl; [done|].
  case_decide; [done|]. rewrite IH. apply Permutation_swap.
Qed.

Lemma stable_sort_perm l : stable_sort R l ≡ₚ l.
Proof.
  induction l as [|x l IH]; simpl; [done|].
  rewrite insert_sorted_perm. by rewrite IH.
Qed.

Lemma elem_of_stable_sort x l : x ∈ stable_sort R l ↔ x ∈ l.
Proof. by rewrite stable_sort_perm. Qed.

Lemma stable_sort_length l : length (stable_sort R l) = length l.
Proof. by rewrite stable_sort_perm. Qed.

Lemma stable_sort_NoDup l : NoDup l → NoDup (stable_sort R l).
Proof. by rewrite stable_sort_perm. Qed.

Lemma insert_sorted_head x l :
  Sorted R (x :: l) → insert_sorted R x l = x :: l.
Proof.
  destruct l as [|y l]; simpl; [done|].
  intros [_ Hhd]%Sorted_inv. inv Hhd. by rewrite decide_True.
Qed.

Lemma stable_sort_sorted_id l : Sorted R l → stable_sort R l = l.
Proof.
  induction l as [|x l IH]; simpl; [done|]. intros Hs.
  rewrite IH by (by apply Sorted_inv in Hs as [? _]).
  by apply insert_sorted_head.
Qed.

Context `{!Total R}.

Lemma insert_sorted_Sorted x l : Sorted R l → Sorted R (insert_sorted R x l).
Proof.
  induction l as [|y l IH]; simpl; intros Hs.
  - by repeat constructor.
  - case_decide as Hxy.
    + constructor; [done|]. by constructor.
    + apply Sorted_inv in Hs as [Hs Hhd].
      constructor; [by apply IH|].
      destruct (total R x y) as [?|Hyx]; [done|].
      destruct l as [|z l]; simpl.
      * by constructor.
      * case_decide; constructor; [done|]. by inv Hhd.
Qed.

Lemma stable_sort_Sorted l : Sorted R (stable_sort R l).
Proof.
  induction l as [|x l IH]; simpl; [constructor|].
  by apply insert_sorted_Sorted.
Qed.

Lemma stable_sort_idem l : stable_sort R (stable_sort R l) = stable_sort R l.
Proof. apply stable_sort_sorted_id, stable_sort_Sorted. Qed.
End stable_sort_facts.

(** ** Deduplication *)

Lemma array_from_set_unfold xs : array_from_set xs = foldl set_add [] xs.
Proof. reflexivity. Qed.

Lemma foldl_set_add_elem acc xs x :
  x ∈ foldl set_add acc xs ↔ x ∈ acc ∨ x ∈ xs.
Proof.
  revert acc. induction xs as [|y xs IH]; intros acc; simpl.
  - rewrite elem_of_nil. tauto.
  - rewrite IH. unfold set_add. rewrite elem_of_cons.
    case_decide; rewrite ?elem_of_app, ?list_elem_of_singleton; naive_solver.
Qed.

Lemma foldl_set_add_NoDup acc xs : NoDup acc → NoDup (foldl set_add acc xs).
Proof.
  revert acc. induction xs as [|y xs IH]; intros acc Hacc; simpl; [done|].
  apply IH. unfold set_add. case_decide; [done|].
  apply NoDup_app. split_and!; [done|set_solver|apply NoDup_singleton].
Qed.

Lemma foldl_set_add_fresh acc xs :
  NoDup (acc ++ xs) → foldl set_add acc xs = acc ++ xs.
Proof.
  revert acc. induction xs as [|y xs IH]; intros acc Hnd; simpl.
  - by rewrite app_nil_r.
  - unfold set_add at 2. rewrite decide_False.
    + rewrite IH; [by rewrite <-app_assoc|]. by rewrite <-app_assoc.
    + apply NoDup_app in Hnd as (_ & Hdisj & _). intros Hin.
      apply (Hdisj _ Hin). set_solver.
Qed.

Lemma elem_of_array_from_set x xs : x ∈ array_from_set xs ↔ x ∈ xs.
Proof. rewrite array_from_set_unfold, foldl_set_add_elem. set_solver. Qed.

Lemma array_from_set_NoDup xs : NoDup (array_from_set xs).
Proof. apply foldl_set_add_NoDup, NoDup_nil_2. Qed.

Lemma array_from_set_fresh xs : NoDup xs → array_from_set xs = xs.
Proof. intros. by rewrite array_from_set_unfold, foldl_set_add_fresh. Qed.

Lemma sort_elem x xs : x ∈ sort (array_from_set xs) ↔ x ∈ xs.
Proof. unfold sort. by rewrite elem_of_stable_sort, elem_of_array_from_set. Qed.

Lemma sort_NoDup xs : NoDup (sort (array_from_set xs)).
Proof. apply stable_sort_NoDup, array_from_set_NoDup. Qed.

Lemma sort_Sorted xs : Sorted String.le (sort xs).
Proof. apply stable_sort_Sorted; apply _. Qed.

Lemma uniq_idem xs :
  sort (array_from_set (sort (array_from_set xs))) = sort (array_from_set xs).
Proof.
  rewrite (array_from_set_fresh (sort _)) by apply sort_NoDup.
  apply stable_sort_idem; apply _.
Qed.

Lemma uniq_singleton x : sort (array_from_set [x]) = [x].
Proof. reflexivity. Qed.

(** ** SELECT DISTINCT and ORDER BY *)

Section distinct_facts.
Context {A : Type} (key : A → option string).

Lemma elem_of_distinct x seen l :
  x ∈ distinct key seen l → x ∈ l ∧ key x ∉ seen.
Proof.
  revert seen. induction l as [|y l IH]; intros seen; simpl.
  - by intros ?%elem_of_nil.
  - case_bool_decide as Hy.
    + intros [??]%IH. split; [by right|done].
    + intros [->|[? Hx]%IH]%elem_of_cons.
      * split; [by left|done].
      * split; [by right|]. set_solver.
Qed.

Lemma distinct_keys_NoDup seen l : NoDup (key <$> distinct key seen l).
Proof.
  revert seen. induction l as [|y l IH]; intros seen; simpl.
  - constructor.
  - case_bool_decide as Hy; [apply IH|].
    rewrite fmap_cons. constructor; [|apply IH].
    intros (z & Hz & [_ Hzs]%elem_of_distinct)%list_elem_of_fmap.
    apply Hzs. rewrite <-Hz. by left.
Qed.

Lemma distinct_NoDup seen l : NoDup (distinct key seen l).
Proof. eapply NoDup_fmap_1, distinct_keys_NoDup. Qed.

Lemma distinct_complete x seen l :
  x ∈ l → key x ∈ seen ∨ ∃ y, y ∈ distinct key seen l ∧ key y = key x.
Proof.
  revert seen. induction l as [|y l IH]; intros seen; simpl.
  - by intros ?%elem_of_nil.
  - intros [->|Hx]%elem_of_cons.
    + case_bool_decide; [by left|]. right. exists y. split; [by left|done].
    + case_bool_decide as Hy.
      * apply IH, Hx.
      * destruct (IH (key y :: seen) Hx) as [[Heq|?]%elem_of_cons|(z & ? & ?)].
        -- right. exists y. split; [by left|done].
        -- by left.
        -- right. exists z. split; [by right|done].
Qed.

Lemma order_by_elem x l : x ∈ order_by key l ↔ x ∈ l.
Proof. unfold order_by. by rewrite elem_of_stable_sort. Qed.

Lemma order_by_NoDup l : NoDup l → NoDup (order_by key l).
Proof. apply stable_sort_NoDup. Qed.
End distinct_facts.

(** ** The coverage lookup *)

Lemma stats_fold_lookup rows m0 k e :
  foldl stats_step m0 rows !! k = Some e →
  m0 !! k = Some e ∨ ∃ r, r ∈ rows ∧ st_outcode r = k ∧ e = item_of_row r.
Proof.
  revert m0. induction rows as [|r rows IH]; intros m0; simpl; [by left|].
  intros [Hm|(r' & ? & ? & ?)]%IH.
  - unfold stats_step in Hm. apply lookup_insert_Some in Hm as [[<- <-]|[_ ?]].
    + right. exists r. split; [by left|done].
    + by left.
  - right. exists r'. split; [by right|done].
Qed.

Lemma stats_fold_keep rows m k :
  is_Some (m !! k) → is_Some (foldl stats_step m rows !! k).
Proof.
  revert m. induction rows as [|r rows IH]; intros m Hm; simpl; [done|].
  apply IH. unfold stats_step. rewrite lookup_insert_is_Some.
  destruct (decide (st_outcode r = k)); [by left|by right].
Qed.

Lemma stats_fold_present rows m0 r :
  r ∈ rows → is_Some (foldl stats_step m0 rows !! st_outcode r).
Proof.
  revert m0. induction rows as [|r' rows IH]; intros m0.
  - by intros ?%elem_of_nil.
  - intros [->|Hr]%elem_of_cons; simpl; [|by apply IH].
    apply stats_fold_keep. unfold stats_step. by rewrite lookup_insert_eq.
Qed.

Lemma elem_of_select_stats r outcodes db :
  r ∈ select_stats outcodes db ↔
  r ∈ postcode_district_stats db
  ∧ ∃ oc, oc ∈ outcodes ∧ collate (st_outcode r) = collate oc.
Proof.
  unfold select_stats. rewrite list_elem_of_filter.
  rewrite Is_true_true, existsb_exists.
  split.
  - intros [(oc & Hoc%list_elem_of_In & Heq) ?]. split; [done|].
    exists oc. split; [done|]. unfold coll_eqb in Heq.
    by apply bool_decide_eq_true in Heq.
  - intros [? (oc & Hoc & Heq)]. split; [|done].
    exists oc. split; [by apply list_elem_of_In|].
    unfold coll_eqb. by apply bool_decide_eq_true.
Qed.

(** What [fetchOutcodeStats] resolves with on a pool that serves queries:
    every entry is the coerced form of a stored row filed under that row's
    outcode, and every stored row whose outcode was asked for has an
    entry. *)
Lemma fetchOutcodeStats_live db outcodes :
  ∃ m, fetchOutcodeStats (Live db) outcodes = Ok m
       ∧ (∀ k e, m !! k = Some e →
            ∃ r, r ∈ postcode_district_stats db
                 ∧ st_outcode r = k ∧ e = item_of_row r)
       ∧ (∀ r, r ∈ postcode_district_stats db → st_outcode r ∈ outcodes →
            is_Some (m !! st_outcode r)).
Proof.
  unfold fetchOutcodeStats. case_decide as Hempty.
  - exists ∅. split; [done|]. split.
    + intros k e. by rewrite lookup_empty.
    + intros r _. rewrite Hempty. by intros ?%elem_of_nil.
  - eexists. split; [reflexivity|]. split.
    + intros k e [Hm|(r & Hr & ? & ?)]%stats_fold_lookup.
      * by rewrite lookup_empty in Hm.
      * apply elem_of_select_stats in Hr as [? _]. eauto.
    + intros r Hr Hoc. apply stats_fold_present.
      apply elem_of_select_stats. eauto.
Qed.

(** ** The matcher *)

Lemma take_class_sound cls n s m r :
  take_class cls n s = Some (m, r) →
  s = m +:+ r ∧ all_chars cls m = true ∧ String.length m = n.
Proof.
  revert s m r. induction n as [|n IH]; intros s m r; simpl.
  - intros [= <- <-]. done.
  - destruct s as [|c s]; [done|].
    destruct (cls c) eqn:Hc; [|done].
    destruct (take_class cls n s) as [[m' r']|] eqn:Ht; [|done].
    intros [= <- <-]. apply IH in Ht as (-> & Hm & <-).
    simpl. by rewrite Hc, Hm.
Qed.

Lemma take_class_complete cls m r :
  all_chars cls m = true →
  take_class cls (String.length m) (m +:+ r) = Some (m, r).
Proof.
  induction m as [|c m IH]; [done|].
  intros [Hc Hm]%andb_prop. rewrite app_cons. simpl. by rewrite Hc, (IH Hm).
Qed.

Lemma first_down_sound {A} (f : nat → option A) lo extra r :
  first_down f lo extra = Some r →
  ∃ n, lo ≤ n ≤ lo + extra ∧ f n = Some r.
Proof.
  induction extra as [|e IH]; simpl.
  - destruct (f (lo + 0)) eqn:Hf; [|done].
    intros [= <-]. exists (lo + 0). split; [lia|done].
  - destruct (f (lo + S e)) eqn:Hf.
    + intros [= <-]. exists (lo + S e). split; [lia|done].
    + intros (n & ? & ?)%IH. exists n. split; [lia|done].
Qed.

Lemma first_down_complete {A} (f : nat → option A) lo extra n :
  lo ≤ n ≤ lo + extra → is_Some (f n) → is_Some (first_down f lo extra).
Proof.
  induction extra as [|e IH]; simpl; intros Hn Hf.
  - replace (lo + 0) with n by lia. by destruct Hf as [? ->].
  - destruct (f (lo + S e)) eqn:Hfe; [done|].
    apply IH; [|done].
    destruct (decide (n = lo + S e)) as [->|]; [|lia].
    rewrite Hfe in Hf. by destruct Hf.
Qed.

Lemma match_atoms_sound p s gs :
  match_atoms p s = Some gs → s = concat_all gs ∧ Forall2 fits p gs.
Proof.
  revert s gs. induction p as [|[cls lo hi] p IH]; intros s gs; simpl.
  - case_decide as Hs; [|done]. intros [= <-]. by split; [|constructor].
  - intros (n & Hn & Hf)%first_down_sound.
    destruct (take_class cls n s) as [[m r]|] eqn:Ht; [|done].
    destruct (match_atoms p r) as [gs'|] eqn:Hm; [|done].
    injection Hf as <-.
    apply take_class_sound in Ht as (-> & Hcls & <-).
    apply IH in Hm as [-> Hfits]. split; [done|].
    constructor; [|done]. by split.
Qed.

Lemma match_atoms_complete p gs :
  Forall2 fits p gs → is_Some (match_atoms p (concat_all gs)).
Proof.
  revert gs. induction p as [|[cls lo hi] p IH]; intros gs Hfits.
  - inv Hfits. by exists [].
  - inv Hfits. rename y into g. simpl.
    match goal with H : fits _ _ |- _ => destruct H as [Hcls Hlen] end.
    apply (first_down_complete _ _ _ (String.length g)); [done|].
    rewrite take_class_complete by done.
    match goal with H : Forall2 _ _ _ |- _ => apply IH in H as [r ->] end.
    done.
Qed.

(** ** The postcode pattern *)

Lemma well_formed_postcode_spec q :
  well_formed_postcode q = true ↔
  (all_chars Char.is_alpha (pc_area q) = true
   ∧ 1 ≤ String.length (pc_area q) ≤ 2)
  ∧ (all_chars Char.is_digit (pc_district q) = true
     ∧ 1 ≤ String.length (pc_district q) ≤ 2)
  ∧ (all_chars Char.is_alpha (pc_sub q) = true
     ∧ String.length (pc_sub q) ≤ 1)
  ∧ (all_chars Char.is_space (pc_gap q) = true
     ∧ String.length (pc_gap q) ≤ 1)
  ∧ ∃ d l1 l2, pc_incode q = String d (String l1 (String l2 ""))
               ∧ Char.is_digit d = true ∧ Char.is_alpha l1 = true
               ∧ Char.is_alpha l2 = true.
Proof.
  unfold well_formed_postcode. rewrite !andb_true_iff, !bool_decide_eq_true.
  split.
  - intros [[[[[[[[??]?]?]?]?]?]?] Hinc].
    repeat split; try done; try lia.
    destruct (pc_incode q) as [|d [|l1 [|l2 [|]]]]; try done.
    apply andb_prop in Hinc as [[??]%andb_prop ?]. by exists d, l1, l2.
  - intros ([??] & [??] & [??] & [??] & d & l1 & l2 & -> & -> & -> & ->).
    repeat split; try done; lia.
Qed.

Lemma well_formed_postcode_inv q :
  well_formed_postcode q = true →
  (all_chars Char.is_alpha (pc_area q) = true
   ∧ 1 ≤ String.length (pc_area q) ≤ 2)
  ∧ (all_chars Char.is_digit (pc_district q) = true
     ∧ 1 ≤ String.length (pc_district q) ≤ 2)
  ∧ (all_chars Char.is_alpha (pc_sub q) = true
     ∧ String.length (pc_sub q) ≤ 1)
  ∧ (all_chars Char.is_space (pc_gap q) = true
     ∧ String.length (pc_gap q) ≤ 1)
  ∧ ∃ d l1 l2, pc_incode q = String d (String l1 (String l2 ""))
               ∧ Char.is_digit d = true ∧ Char.is_alpha l1 = true
               ∧ Char.is_alpha l2 = true.
Proof. apply well_formed_postcode_spec. Qed.

Lemma outcode_regex_sound s gs :
  match_atoms OUTCODE_REGEX s = Some gs →
  ∃ q, well_formed_postcode q = true ∧ s = postcode_text q
       ∧ group1 gs = Some (postcode_outcode q).
Proof.
  intros [-> Hfits]%match_atoms_sound. unfold OUTCODE_REGEX in Hfits.
  apply Forall2_cons_inv_l in Hfits as (a & ? & [??] & Hfits & ->).
  apply Forall2_cons_inv_l in Hfits as (d & ? & [??] & Hfits & ->).
  apply Forall2_cons_inv_l in Hfits as (l & ? & [??] & Hfits & ->).
  apply Forall2_cons_inv_l in Hfits as (sp & ? & [??] & Hfits & ->).
  apply Forall2_cons_inv_l in Hfits as (i & ? & [??] & Hfits & ->).
  apply Forall2_cons_inv_l in Hfits as (ll & ? & [??] & Hfits & ->).
  apply Forall2_nil_inv_l in Hfits as ->.
  exists {| pc_area := a; pc_district := d; pc_sub := l; pc_gap := sp;
            pc_incode := i +:+ ll |}.
  split; [|split].
  - unfold well_formed_postcode. simpl.
    destruct i as [|c1 [|]]; simpl in *; try lia.
    destruct ll as [|c2 [|c3 [|]]]; simpl in *; try lia.
    rewrite !andb_true_iff, !bool_decide_eq_true.
    repeat match goal with H : all_chars _ _ = true |- _ =>
             rewrite ?andb_true_r in H end.
    repeat match goal with H : _ && _ = true |- _ =>
             apply andb_prop in H as [??] end.
    repeat split; try done; lia.
  - unfold postcode_text, concat_all. simpl. by rewrite app_empty_r.
  - done.
Qed.

Lemma outcode_regex_complete q :
  well_formed_postcode q = true →
  is_Some (match_atoms OUTCODE_REGEX (postcode_text q)).
Proof.
  intros ([??] & [??] & [??] & [??] & d & l1 & l2 & Hinc & ? & ? & ?)
    %well_formed_postcode_inv.
  assert (postcode_text q =
          concat_all [pc_area q; pc_district q; pc_sub q; pc_gap q;
                      String d ""; String l1 (String l2 "")]) as ->.
  { unfold postcode_text, concat_all. simpl. by rewrite Hinc. }
  apply match_atoms_complete. unfold OUTCODE_REGEX.
  repeat (constructor;
          [split; simpl; [rewrite ?andb_true_iff; split_and?; done|lia]|]).
  constructor.
Qed.

Lemma app_split_str a b a' b' :
  a +:+ b = a' +:+ b' → String.length a ≤ String.length a' →
  ∃ k, a' = a +:+ k ∧ b = k +:+ b'.
Proof.
  revert a'. induction a as [|c a IH]; intros a' Heq Hlen.
  - exists a'. by rewrite !app_empty_l in *.
  - destruct a' as [|c' a']; simpl in Hlen; [lia|].
    rewrite !app_cons in Heq. injection Heq as -> Heq.
    destruct (IH a' Heq) as (k & -> & ->); [lia|]. by exists k.
Qed.

Lemma app_inj_length a b a' b' :
  a +:+ b = a' +:+ b' → String.length a = String.length a' →
  a = a' ∧ b = b'.
Proof.
  intros Heq Hlen. destruct (app_split_str _ _ _ _ Heq) as (k & -> & ->); [lia|].
  rewrite length_app_str in Hlen.
  rewrite (length_zero_str k) by lia. by rewrite app_empty_r.
Qed.

Lemma alnum_not_space c : is_alnum c = true → Char.is_space c = false.
Proof. by_cases_on_char c. Qed.

Lemma all_alpha_alnum s :
  all_chars Char.is_alpha s = true → all_chars is_alnum s = true.
Proof. apply all_chars_impl. unfold is_alnum. by intros c ->. Qed.

Lemma all_digit_alnum s :
  all_chars Char.is_digit s = true → all_chars is_alnum s = true.
Proof.
  apply all_chars_impl. unfold is_alnum. intros c ->. apply orb_true_r.
Qed.

Lemma postcode_outcode_alnum q :
  well_formed_postcode q = true →
  all_chars is_alnum (postcode_outcode q) = true
  ∧ 2 ≤ String.length (postcode_outcode q) ≤ 5.
Proof.
  intros ([??] & [??] & [??] & _)%well_formed_postcode_inv.
  unfold postcode_outcode. rewrite !all_chars_app, !length_app_str.
  rewrite (all_alpha_alnum (pc_area q)), (all_digit_alnum (pc_district q)),
    (all_alpha_alnum (pc_sub q)) by done.
  split; [done|lia].
Qed.

Lemma postcode_text_split q :
  postcode_text q = postcode_outcode q +:+ pc_gap q +:+ pc_incode q.
Proof. unfold postcode_text, postcode_outcode. by rewrite !app_assoc_str. Qed.

(** A text reads as a postcode in one way only, as far as its outcode is
    concerned. *)
Lemma postcode_outcode_unique q q' :
  well_formed_postcode q = true → well_formed_postcode q' = true →
  postcode_text q = postcode_text q' →
  postcode_outcode q = postcode_outcode q'.
Proof.
  intros Hq Hq'. rewrite !postcode_text_split. intros Heq.
  pose proof (postcode_outcode_alnum _ Hq) as [Han _].
  pose proof (postcode_outcode_alnum _ Hq') as [Han' _].
  apply well_formed_postcode_inv in Hq
    as (_ & _ & _ & [Hsp Hgl] & d & l1 & l2 & Hinc & _).
  apply well_formed_postcode_inv in Hq'
    as (_ & _ & _ & [Hsp' Hgl'] & d' & l1' & l2' & Hinc' & _).
  assert (String.length (postcode_outcode q) + String.length (pc_gap q)
          = String.length (postcode_outcode q')
            + String.length (pc_gap q')) as Hlen.
  { apply (f_equal String.length) in Heq.
    rewrite !length_app_str, Hinc, Hinc' in Heq. simpl in Heq. lia. }
  assert (∀ oc g rest oc' rest',
            oc +:+ g +:+ rest = oc' +:+ rest' →
            String.length oc < String.length oc' →
            String.length g = 1 → all_chars Char.is_space g = true →
            all_chars is_alnum oc' = true → False) as Hclash.
  { intros oc g rest oc' rest' E Hlt Hg1 Hgs Hoc'.
    destruct (app_split_str _ _ _ _ E) as (k & -> & Hk); [lia|].
    destruct g as [|c [|]]; simpl in Hg1; try lia.
    destruct k as [|c' k]; [rewrite length_app_str in Hlt; simpl in Hlt; lia|].
    rewrite !app_cons in Hk. injection Hk as <- _.
    rewrite all_chars_app in Hoc'. apply andb_prop in Hoc' as [_ Hc].
    simpl in Hc, Hgs. apply andb_prop in Hc as [Hc%alnum_not_space _].
    apply andb_prop in Hgs as [Hgs _]. congruence. }
  destruct (decide (String.length (postcode_outcode q)
                    = String.length (postcode_outcode q'))) as [Hsame|Hdiff].
  - by apply app_inj_length in Heq as [? _].
  - destruct (decide (String.length (postcode_outcode q)
                      < String.length (postcode_outcode q'))).
    + exfalso. eapply (Hclash _ (pc_gap q)); [exact Heq|lia|lia|done|done].
    + exfalso. symmetry in Heq.
      eapply (Hclash _ (pc_gap q')); [exact Heq|lia|lia|done|done].
Qed.

(** ** Trimming and upper-casing a postcode *)

Lemma trimEnd_snoc s c :
  Char.is_space c = false → trimEnd (s +:+ String c "") = s +:+ String c "".
Proof.
  intros Hc. induction s as [|x s IH].
  - simpl. by rewrite Hc.
  - rewrite app_cons. simpl. rewrite IH.
    destruct s; by rewrite ?app_cons.
Qed.

Lemma trim_fixed s c t u c' :
  s = String c t → s = u +:+ String c' "" →
  Char.is_space c = false → Char.is_space c' = false → trim s = s.
Proof.
  intros Hhead Hlast Hc Hc'. unfold trim.
  replace (trimStart s) with s by (rewrite Hhead; simpl; by rewrite Hc).
  rewrite Hlast. by apply trimEnd_snoc.
Qed.

Lemma all_alpha_upper s :
  all_chars Char.is_alpha s = true →
  all_chars Char.is_alpha (toUpperCase s) = true.
Proof.
  induction s as [|c s IH]; simpl; [done|].
  intros [Hc Hs]%andb_prop. apply alpha_facts in Hc as (_ & _ & -> & _). auto.
Qed.

Lemma all_digit_upper s :
  all_chars Char.is_digit s = true → toUpperCase s = s.
Proof.
  induction s as [|c s IH]; simpl; [done|].
  intros [Hc Hs]%andb_prop. apply digit_facts in Hc as (_ & _ & -> & _).
  by rewrite IH.
Qed.

Lemma all_space_upper s :
  all_chars Char.is_space s = true → toUpperCase s = s.
Proof.
  induction s as [|c s IH]; simpl; [done|].
  intros [Hc Hs]%andb_prop. apply space_facts in Hc as (_ & _ & ->).
  by rewrite IH.
Qed.

Lemma upper_parts_well_formed q :
  well_formed_postcode q = true → well_formed_postcode (upper_parts q) = true.
Proof.
  rewrite !well_formed_postcode_spec. simpl.
  intros ([??] & [??] & [??] & [??] & d & l1 & l2 & -> & Hd & Hl1 & Hl2).
  rewrite !toUpperCase_length.
  rewrite (all_digit_upper (pc_district q)), (all_space_upper (pc_gap q))
    by done.
  split; [split; [by apply all_alpha_upper|done]|]. split; [done|].
  split; [split; [by apply all_alpha_upper|done]|]. split; [done|].
  exists (Char.upper d), (Char.upper l1), (Char.upper l2). simpl.
  destruct (digit_facts _ Hd) as (_ & _ & -> & _).
  destruct (alpha_facts _ Hl1) as (_ & _ & -> & _).
  destruct (alpha_facts _ Hl2) as (_ & _ & -> & _). done.
Qed.

Lemma upper_parts_text q :
  postcode_text (upper_parts q) = toUpperCase (postcode_text q).
Proof. unfold postcode_text. simpl. by rewrite !toUpperCase_app. Qed.

Lemma upper_parts_outcode q :
  postcode_outcode (upper_parts q) = toUpperCase (postcode_outcode q).
Proof. unfold postcode_outcode. simpl. by rewrite !toUpperCase_app. Qed.

Lemma postcode_text_trim q :
  well_formed_postcode q = true →
  postcode_text q ≠ "" ∧ trim (postcode_text q) = postcode_text q.
Proof.
  intros ([Ha ?] & _ & _ & _ & d & l1 & l2 & Hinc & _ & _ & Hl2)
    %well_formed_postcode_inv.
  destruct (pc_area q) as [|c a] eqn:Harea; simpl in *; [lia|].
  apply andb_prop in Ha as [Hc _].
  apply alpha_facts in Hc as (_ & Hc & _).
  apply alpha_facts in Hl2 as (_ & Hl2 & _).
  split; [unfold postcode_text; by rewrite Harea|].
  eapply (trim_fixed _ c _
            (pc_area q +:+ pc_district q +:+ pc_sub q +:+ pc_gap q
             +:+ String d (String l1 "")) l2); [| |done|done].
  - unfold postcode_text. rewrite Harea. apply app_cons.
  - unfold postcode_text. rewrite Hinc, Harea, !app_assoc_str. done.
Qed.

(** The parser on a well-formed postcode: the upper-cased outcode portion. *)
Lemma extractOutcodeFromPostcode_full q :
  well_formed_postcode q = true →
  extractOutcodeFromPostcode (postcode_text q)
  = Some (toUpperCase (postcode_outcode q)).
Proof.
  intros Hq. unfold extractOutcodeFromPostcode.
  destruct (postcode_text_trim q Hq) as [Hne ->].
  rewrite decide_False by done. cbv zeta.
  pose proof (upper_parts_well_formed q Hq) as Hu.
  rewrite <-upper_parts_text.
  destruct (outcode_regex_complete _ Hu) as [gs Hgs]. rewrite Hgs. simpl.
  apply outcode_regex_sound in Hgs as (q' & Hq' & Htext & ->).
  by rewrite <-upper_parts_outcode, (postcode_outcode_unique _ _ Hu Hq' Htext).
Qed.

(** Conversely, whatever the parser returns is the outcode portion of the
    trimmed, upper-cased input read as a postcode. *)
Lemma extractOutcodeFromPostcode_inv input oc :
  extractOutcodeFromPostcode input = Some oc →
  ∃ q, well_formed_postcode q = true
       ∧ toUpperCase (trim input) = postcode_text q
       ∧ oc = postcode_outcode q.
Proof.
  unfold extractOutcodeFromPostcode. case_decide; [done|]. cbv zeta.
  destruct (match_atoms _ _) as [gs|] eqn:Hgs; [|done]. simpl.
  apply outcode_regex_sound in Hgs as (q & Hq & Htext & ->).
  intros [= <-]. eauto.
Qed.

(** ** The area query *)

Lemma elem_of_area_candidates d location db :
  d ∈ area_candidates location db ↔
  ∃ r, r ∈ os_open_names db ∧ POSTCODE_DISTRICT r = Some d ∧ d ≠ ""
       ∧ area_row_matches location r = true.
Proof.
  unfold area_candidates. rewrite list_elem_of_omap. split.
  - intros (r & Hr & Hsel). exists r. split; [done|].
    unfold area_row_selected in Hsel.
    destruct (POSTCODE_DISTRICT r) as [d'|] eqn:Hd; [|done].
    destruct (bool_decide (d' ≠ "")) eqn:Hne; [|done].
    destruct (area_row_matches location r) eqn:Hm; [|done].
    simpl in Hsel. injection Hsel as ->.
    by apply bool_decide_eq_true in Hne.
  - intros (r & Hr & Hd & Hne & Hm). exists r. split; [done|].
    unfold area_row_selected. rewrite Hd, Hm.
    by rewrite bool_decide_eq_true_2.
Qed.

Lemma select_area_outcodes_sound oc location db :
  oc ∈ select_area_outcodes location db →
  ∃ r, r ∈ os_open_names db ∧ POSTCODE_DISTRICT r = Some oc ∧ oc ≠ ""
       ∧ area_row_matches location r = true.
Proof.
  unfold select_area_outcodes. rewrite order_by_elem.
  intros [Hc _]%elem_of_distinct. by apply elem_of_area_candidates.
Qed.

Lemma select_area_outcodes_complete r d location db :
  r ∈ os_open_names db → POSTCODE_DISTRICT r = Some d → d ≠ "" →
  area_row_matches location r = true →
  ∃ oc, oc ∈ select_area_outcodes location db ∧ collate oc = collate d.
Proof.
  intros Hr Hd Hne Hm.
  assert (d ∈ area_candidates location db) as Hc
    by (apply elem_of_area_candidates; eauto).
  apply (distinct_complete (λ d, Some (collate d)) _ []) in Hc
    as [?%elem_of_nil|(oc & Hoc & Hkey)]; [done|].
  exists oc. split; [|congruence].
  unfold select_area_outcodes. by rewrite order_by_elem.
Qed.

Lemma select_area_outcodes_NoDup location db :
  NoDup (collate <$> select_area_outcodes location db).
Proof.
  unfold select_area_outcodes, order_by.
  rewrite (stable_sort_perm _ _).
  pose proof (distinct_keys_NoDup (λ d, Some (collate d)) []
                (area_candidates location db)) as Hnd.
  rewrite (list_fmap_compose collate Some) in Hnd.
  by apply NoDup_fmap_1 in Hnd.
Qed.

(** ** What the resolver collects *)

Lemma extract_truthy input oc :
  extractOutcodeFromPostcode input = Some oc → oc ≠ "".
Proof.
  intros (q & Hq & _ & ->)%extractOutcodeFromPostcode_inv.
  apply postcode_outcode_alnum in Hq as [_ Hlen].
  intros Heq. rewrite Heq in Hlen. simpl in Hlen. lia.
Qed.

Lemma collect_some p input oc :
  extractOutcodeFromPostcode input = Some oc →
  collect p input = collect_postcode p oc.
Proof.
  intros Hoc. unfold collect. rewrite Hoc. simpl.
  by rewrite bool_decide_eq_true_2 by by eapply extract_truthy.
Qed.

Lemma collect_none p input :
  extractOutcodeFromPostcode input = None →
  collect p input = collect_area p input.
Proof. intros Hoc. unfold collect. by rewrite Hoc. Qed.

Lemma stats_map_keys db outcodes m k e :
  fetchOutcodeStats (Live db) outcodes = Ok m → m !! k = Some e →
  outcode e = k ∧ ∃ r, r ∈ postcode_district_stats db ∧ e = item_of_row r.
Proof.
  destruct (fetchOutcodeStats_live db outcodes) as (m' & -> & Hm & _).
  intros [= <-] (r & Hr & <- & ->)%Hm. eauto.
Qed.

Lemma fetchOutcodeStats_broken b outcodes m :
  fetchOutcodeStats (Broken b) outcodes = Ok m → m = ∅.
Proof.
  unfold fetchOutcodeStats. case_decide; [by intros [= <-]|done].
Qed.

Lemma stats_map_outcode p outcodes m k e :
  fetchOutcodeStats p outcodes = Ok m → m !! k = Some e → outcode e = k.
Proof.
  destruct p as [db|b].
  - intros Hm Hk. by destruct (stats_map_keys _ _ _ _ _ Hm Hk).
  - intros ->%fetchOutcodeStats_broken. by rewrite lookup_empty.
Qed.

Lemma omap_lookup_items (m : gmap string coverage_item) (ocs : list string) :
  (∀ k e, m !! k = Some e → outcode e = k) →
  outcode <$> omap (λ oc, m !! oc) ocs = filter (λ oc, is_Some (m !! oc)) ocs.
Proof.
  intros Hm. induction ocs as [|oc ocs IH]; [done|].
  rewrite filter_cons. csimpl.
  destruct (m !! oc) as [e|] eqn:He.
  - rewrite decide_True by done. csimpl. rewrite IH. f_equal. by apply Hm.
  - rewrite decide_False by (by intros [??]). done.
Qed.

(** The invariant of the two working arrays. *)
Lemma collect_inv p input ocs cov :
  collect p input = Ok (ocs, cov) →
  NoDup ocs ∧ NoDup (outcode <$> cov) ∧ ∀ e, e ∈ cov → outcode e ∈ ocs.
Proof.
  destruct (extractOutcodeFromPostcode input) as [oc|] eqn:Hoc.
  - rewrite (collect_some _ _ _ Hoc). unfold collect_postcode.
    destruct (fetchOutcodeStats p [oc]) as [m|] eqn:Hm; [|done]. simpl.
    destruct (m !! oc) as [e|] eqn:He; intros [= <- <-].
    + split_and!; [apply NoDup_singleton..|].
      intros e' ->%list_elem_of_singleton.
      rewrite (stats_map_outcode _ _ _ _ _ Hm He). by left.
    + split_and!; [apply NoDup_singleton|constructor|].
      by intros e' ?%elem_of_nil.
  - rewrite (collect_none _ _ Hoc). unfold collect_area.
    destruct (truthy _ && truthy _).
    2:{ intros [= <- <-]. split_and!; [constructor..|].
        by intros e' ?%elem_of_nil. }
    destruct (expandAreaToOutcodes p (trim input)) as [ex|] eqn:Hex; [|done].
    simpl. case_decide as Hnil.
    { intros [= <- <-]. split_and!; [constructor..|].
      by intros e' ?%elem_of_nil. }
    destruct (fetchOutcodeStats p ex) as [m|] eqn:Hm; [|done].
    intros [= <- <-].
    assert (NoDup ex) as Hnd.
    { destruct p as [db|b]; [|done]. injection Hex as <-.
      eapply NoDup_fmap_1, select_area_outcodes_NoDup. }
    rewrite omap_lookup_items by (intros ??; by apply (stats_map_outcode _ _ _ _ _ Hm)).
    split_and!; [done|by apply NoDup_filter|].
    intros e (oc & Hin & Hlook)%list_elem_of_omap.
    by rewrite (stats_map_outcode _ _ _ _ _ Hm Hlook).
Qed.

(** Where the collected outcodes come from. *)
Lemma collect_source p input ocs cov oc :
  collect p input = Ok (ocs, cov) → oc ∈ ocs →
  extractOutcodeFromPostcode input = Some oc
  ∨ (extractOutcodeFromPostcode input = None
     ∧ ∃ db, p = Live db ∧ oc ∈ select_area_outcodes (trim input) db).
Proof.
  destruct (extractOutcodeFromPostcode input) as [oc'|] eqn:Hoc.
  - rewrite (collect_some _ _ _ Hoc). unfold collect_postcode.
    destruct (fetchOutcodeStats p [oc']) as [m|]; [|done]. simpl.
    destruct (m !! oc'); intros [= <- <-] ->%list_elem_of_singleton; by left.
  - rewrite (collect_none _ _ Hoc). unfold collect_area.
    destruct (truthy _ && truthy _); [|by intros [= <- <-] ?%elem_of_nil].
    destruct p as [db|b]; [|done]. simpl.
    case_decide; [by intros [= <- <-] ?%elem_of_nil|].
    destruct (fetchOutcodeStats _ _); [|done]. intros [= <- <-] Hin.
    right. split; [done|]. by exists db.
Qed.

(** Where the collected stats entries come from. *)
Lemma collect_cov_source db input ocs cov e :
  collect (Live db) input = Ok (ocs, cov) → e ∈ cov →
  ∃ r, r ∈ postcode_district_stats db ∧ e = item_of_row r.
Proof.
  destruct (extractOutcodeFromPostcode input) as [oc|] eqn:Hoc.
  - rewrite (collect_some _ _ _ Hoc). unfold collect_postcode.
    destruct (fetchOutcodeStats (Live db) [oc]) as [m|] eqn:Hm; [|done]. simpl.
    destruct (m !! oc) as [e'|] eqn:He; intros [= <- <-].
    + intros ->%list_elem_of_singleton.
      by destruct (stats_map_keys _ _ _ _ _ Hm He).
    + by intros ?%elem_of_nil.
  - rewrite (collect_none _ _ Hoc). unfold collect_area.
    destruct (truthy _ && truthy _); [|by intros [= <- <-] ?%elem_of_nil].
    simpl. case_decide; [by intros [= <- <-] ?%elem_of_nil|].
    destruct (fetchOutcodeStats _ _) as [m|] eqn:Hm; [|done].
    intros [= <- <-] (oc & _ & Hlook)%list_elem_of_omap.
    by destruct (stats_map_keys _ _ _ _ _ Hm Hlook).
Qed.

(** ** The resolver as a whole *)

Lemma resolveTargeting_inv p input r :
  resolveTargeting p input = Ok r →
  ∃ ocs cov, collect p input = Ok (ocs, cov) ∧ r = serialize ocs cov.
Proof.
  unfold resolveTargeting.
  destruct (collect p input) as [[ocs cov]|] eqn:Hc; [|done].
  intros [= <-]. eauto.
Qed.

Lemma fetchOutcodeStats_total db outcodes :
  ∃ m, fetchOutcodeStats (Live db) outcodes = Ok m.
Proof. destruct (fetchOutcodeStats_live db outcodes) as (m & ? & _). eauto. Qed.

(** On a pool that serves its queries the resolver always resolves. *)
Lemma resolveTargeting_live db input :
  ∃ r, resolveTargeting (Live db) input = Ok r.
Proof.
  unfold resolveTargeting, collect.
  destruct (truthy (extractOutcodeFromPostcode input)).
  - unfold collect_postcode.
    destruct (fetchOutcodeStats_total db
                [default "" (extractOutcodeFromPostcode input)]) as [m ->].
    simpl. destruct (m !! _); simpl; eauto.
  - unfold collect_area. destruct (truthy _ && truthy _); [|simpl; eauto].
    simpl. case_decide; [simpl; eauto|].
    destruct (fetchOutcodeStats_total db
                (select_area_outcodes (trim input) db)) as [m ->].
    simpl. eauto.
Qed.

(** ** Claims *)

(** C10. Result invariant: whatever the input and the state of the dataset,
    every entry of the returned [coverage] carries an outcode that is an
    element of [postal_codes], no two entries carry the same outcode, and
    [coverage] is therefore never longer than [postal_codes]. *)
Theorem coverage_within_postal_codes p input r :
  resolveTargeting p input = Ok r →
  (∀ e, e ∈ coverage r → outcode e ∈ postal_codes r)
  ∧ NoDup (outcode <$> coverage r)
  ∧ length (coverage r) ≤ length (postal_codes r).
Proof.
  intros (ocs & cov & Hc & ->)%resolveTargeting_inv.
  apply collect_inv in Hc as (Hnd & Hcov & Hsub). simpl.
  assert (∀ e, e ∈ stable_sort outcode_le cov →
               outcode e ∈ sort (array_from_set ocs)) as Hin.
  { intros e He. apply sort_elem, Hsub. by apply elem_of_stable_sort in He. }
  assert (NoDup (outcode <$> stable_sort outcode_le cov)) as Hnd'.
  { by rewrite (stable_sort_perm _ _). }
  split_and!; [done..|].
  rewrite <-(length_fmap outcode). apply submseteq_length, NoDup_submseteq; [done|].
  intros oc (e & -> & He)%list_elem_of_fmap. by apply Hin.
Qed.

Lemma coverage_within_postal_codes_witness :
  ∃ r, resolveTargeting (Live ayrshire_db) "Ayrshire" = Ok r
       ∧ length (postal_codes r) = 3 ∧ length (coverage r) = 2
       ∧ (∀ e, e ∈ coverage r → outcode e ∈ postal_codes r)
       ∧ NoDup (outcode <$> coverage r)
       ∧ length (coverage r) ≤ length (postal_codes r).
Proof.
  eexists. split; [vm_compute; reflexivity|].
  split; [reflexivity|]. split; [reflexivity|].
  apply (coverage_within_postal_codes (Live ayrshire_db) "Ayrshire").
  vm_compute. reflexivity.
Defined.




(** C5, as stated, fails: the stats row of G64 has a NULL radius and a
    negative diameter, and the lookup still files it; the coverage entry
    handed to the caller carries radius 0 and diameter -2. *)
Lemma coverage_keeps_null_and_negative :
  st_approx_radius_km (stats "G64" None (Some (-2)%Q)) = None
  ∧ ∃ r e, resolveTargeting (Live sparse_stats_db) "G64 1AB" = Ok r
           ∧ coverage r = [e] ∧ outcode e = "G64"
           ∧ approx_radius_km e = 0%Q
           ∧ approx_diameter_km e = (-2)%Q
           ∧ ¬ (0 <= approx_diameter_km e)%Q.
Proof.
  split; [reflexivity|]. eexists _, _.
  split; [vm_compute; reflexivity|]. split; [reflexivity|].
  repeat split. by vm_compute.
Qed.

(** C5, amended. The coverage lookup drops no record: every stats row whose
    outcode is requested has an entry in the returned mapping, and every
    entry is a stored row filed under its outcode with each of the four
    fields coerced by [Number], which keeps a stored number as it is,
    whatever its sign, and turns NULL into 0.  The coverage entries of a
    resolution are such coerced rows. *)
Theorem coverage_lookup_keeps_every_row db outcodes :
  ∃ m, fetchOutcodeStats (Live db) outcodes = Ok m
       ∧ (∀ row, row ∈ postcode_district_stats db →
            st_outcode row ∈ outcodes → is_Some (m !! st_outcode row))
       ∧ (∀ k e, m !! k = Some e →
            ∃ row, row ∈ postcode_district_stats db
                   ∧ st_outcode row = k ∧ outcode e = k
                   ∧ approx_radius_km e = Number (st_approx_radius_km row)
                   ∧ approx_diameter_km e
                     = Number (st_approx_diameter_km row)
                   ∧ centroid_easting_m e
                     = Number (st_centroid_easting_m row)
                   ∧ centroid_northing_m e
                     = Number (st_centroid_northing_m row))
       ∧ (∀ input r e,
            resolveTargeting (Live db) input = Ok r → e ∈ coverage r →
            ∃ row, row ∈ postcode_district_stats db ∧ e = item_of_row row)
       ∧ Number None = 0%Q ∧ (∀ q, Number (Some q) = q).
Proof.
  destruct (fetchOutcodeStats_live db outcodes) as (m & Hm & Hsound & Hall).
  exists m. split_and!; [done|done| | |done|done].
  - intros k e (row & Hrow & <- & ->)%Hsound. exists row. by split_and!.
  - intros input r e (ocs & cov & Hc & ->)%resolveTargeting_inv He.
    simpl in He. apply elem_of_stable_sort in He.
    by eapply collect_cov_source.
Qed.

Lemma coverage_lookup_keeps_every_row_witness :
  ∃ m, fetchOutcodeStats (Live sparse_stats_db) ["G64"] = Ok m
       ∧ is_Some (m !! "G64")
       ∧ ∀ e, m !! "G64" = Some e →
           ∃ row, row ∈ postcode_district_stats sparse_stats_db
                  ∧ approx_radius_km e = Number (st_approx_radius_km row)
                  ∧ approx_diameter_km e
                    = Number (st_approx_diameter_km row).
Proof.
  destruct (coverage_lookup_keeps_every_row sparse_stats_db ["G64"])
    as (m & Hm & Hall & Hsound & _).
  exists m. split; [exact Hm|]. split.
  - apply (Hall (stats "G64" None (Some (-2)%Q))); vm_compute; left.
  - intros e He.
    destruct (Hsound _ _ He) as (row & Hrow & _ & _ & Hr & Hd & _).
    exists row. split; [exact Hrow|]. split; [exact Hr|exact Hd].
Defined.


Lemma trim_no_space s : all_chars not_space s = true → trim s = s.
Proof.
  intros Hs. unfold trim.
  replace (trimStart s) with s.
  2:{ destruct s as [|c s]; [done|]. simpl in *.
      apply andb_prop in Hs as [Hc%negb_true_iff _]. by rewrite Hc. }
  induction s as [|c s IH]; [done|]. simpl in *.
  apply andb_prop in Hs as [Hc%negb_true_iff Hs].
  rewrite (IH Hs), Hc. by destruct s.
Qed.




(** ** LIKE and substrings *)

Lemma any_suffix_spec f s :
  any_suffix f s = true ↔ ∃ pre post, s = pre +:+ post ∧ f post = true.
Proof.
  induction s as [|c s IH]; simpl.
  - rewrite orb_false_r. split.
    + intros Hf. by exists "", "".
    + intros (pre & post & Heq & Hf). destruct pre; [|done].
      rewrite app_empty_l in Heq. by subst.
  - rewrite orb_true_iff, IH. split.
    + intros [Hf|(pre & post & -> & Hf)].
      * by exists "", (String c s).
      * by exists (String c pre), post.
    + intros ([|c' pre] & post & Heq & Hf).
      * rewrite app_empty_l in Heq. subst. by left.
      * rewrite app_cons in Heq. injection Heq as -> ->. right. eauto.
Qed.

Lemma any_suffix_ext f g s :
  (∀ t, f t = g t) → any_suffix f s = any_suffix g s.
Proof. intros Hfg. induction s as [|c s IH]; simpl; by rewrite Hfg, ?IH. Qed.

Lemma any_suffix_empty s : any_suffix (like "") s = true.
Proof. apply any_suffix_spec. exists s, "". by rewrite app_empty_r. Qed.

Lemma prefix_ci_spec t s :
  prefix_ci t s = true ↔
  ∃ mid post, s = mid +:+ post ∧ toUpperCase mid = toUpperCase t.
Proof.
  revert s. induction t as [|c t IH]; intros s; simpl.
  - split; [intros _; by exists "", s|done].
  - destruct s as [|x s].
    + split; [done|]. intros ([|??] & post & ? & ?); done.
    + rewrite andb_true_iff, bool_decide_eq_true, IH. split.
      * intros [Hc (mid & post & -> & Hmid)].
        exists (String x mid), post. split; [done|]. simpl. congruence.
      * intros ([|x' mid] & post & Heq & Hmid); [done|].
        rewrite app_cons in Heq. injection Heq as -> ->.
        simpl in Hmid. injection Hmid as Hc Hmid. split; [done|]. eauto.
Qed.

Lemma contains_ci_spec t s : contains_ci t s = true ↔ ci_substring t s.
Proof.
  unfold contains_ci, ci_substring. rewrite any_suffix_spec. split.
  - intros (pre & rest & -> & (mid & post & -> & ?)%prefix_ci_spec). eauto.
  - intros (pre & mid & post & -> & ?). exists pre, (mid +:+ post).
    split; [done|]. apply prefix_ci_spec. eauto.
Qed.

(** A text free of wildcards, followed by [%], is matched as a prefix. *)
Lemma like_prefix t s :
  no_wildcard t = true → like (t +:+ "%") s = prefix_ci t s.
Proof.
  revert s. induction t as [|c t IH]; intros s Ht.
  - rewrite app_empty_l. simpl. apply any_suffix_empty.
  - simpl in Ht. rewrite !andb_true_iff, !negb_true_iff in Ht.
    destruct Ht as [[[H1 H2] H3] Ht].
    rewrite app_cons. simpl. rewrite H1, H2, H3.
    destruct s as [|x s]; simpl; [done|]. by rewrite IH.
Qed.

(** [CONCAT('%', t, '%')] around a text free of wildcards is a
    case-insensitive substring test. *)
Lemma like_area_pattern t s :
  no_wildcard t = true → like (area_pattern t) s = contains_ci t s.
Proof.
  intros Ht. unfold area_pattern, contains_ci. rewrite app_cons, app_empty_l.
  simpl. apply any_suffix_ext. intros u. by apply like_prefix.
Qed.

Lemma area_row_matches_spec t r :
  no_wildcard t = true →
  area_row_matches t r = true ↔ field_contains t r.
Proof.
  intros Ht. unfold area_row_matches, field_contains.
  assert (∀ col, like_col (area_pattern t) col = true ↔
                 ∃ v, col = Some v ∧ ci_substring t v) as Hcol.
  { intros [v|]; unfold like_col, from_option.
    - rewrite like_area_pattern, contains_ci_spec by done. naive_solver.
    - naive_solver. }
  rewrite !orb_true_iff, !Hcol. naive_solver.
Qed.

(** ** Bare outcodes *)

Lemma bare_outcode_inv s :
  bare_outcode s = true →
  ∃ a d l, s = a +:+ d +:+ l
           ∧ (all_chars Char.is_alpha a = true ∧ 1 ≤ String.length a ≤ 2)
           ∧ (all_chars Char.is_digit d = true ∧ 1 ≤ String.length d ≤ 2)
           ∧ (all_chars Char.is_alpha l = true ∧ String.length l ≤ 1).
Proof.
  unfold bare_outcode. rewrite bool_decide_eq_true.
  intros [gs [-> Hfits]%match_atoms_sound]. unfold OUTCODE_ONLY in Hfits.
  apply Forall2_cons_inv_l in Hfits as (a & ? & [??] & Hfits & ->).
  apply Forall2_cons_inv_l in Hfits as (d & ? & [??] & Hfits & ->).
  apply Forall2_cons_inv_l in Hfits as (l & ? & [??] & Hfits & ->).
  apply Forall2_nil_inv_l in Hfits as ->.
  exists a, d, l. unfold concat_all. simpl. rewrite app_empty_r.
  split_and!; try done; lia.
Qed.

Lemma alnum_not_wildcard s :
  all_chars is_alnum s = true → no_wildcard s = true.
Proof.
  induction s as [|c s IH]; simpl; [done|].
  intros [Hc Hs]%andb_prop. rewrite (IH Hs), andb_true_r.
  revert Hc. clear. by_cases_on_char c.
Qed.

Lemma bare_outcode_alnum s :
  bare_outcode s = true →
  all_chars is_alnum s = true ∧ 2 ≤ String.length s ≤ 5.
Proof.
  intros (a & d & l & -> & [??] & [??] & [??])%bare_outcode_inv.
  rewrite !all_chars_app, !length_app_str.
  rewrite (all_alpha_alnum a), (all_digit_alnum d), (all_alpha_alnum l) by done.
  split; [done|lia].
Qed.

Lemma bare_outcode_trim s : bare_outcode s = true → trim s = s ∧ s ≠ "".
Proof.
  intros [Han Hlen]%bare_outcode_alnum. split.
  - apply trim_no_space. eapply all_chars_impl; [|exact Han].
    intros c Hc. unfold not_space. by rewrite alnum_not_space.
  - intros ->. simpl in Hlen. lia.
Qed.

(** A bare outcode is never read as a full postcode. *)
Lemma bare_outcode_not_postcode s :
  bare_outcode s = true → extractOutcodeFromPostcode s = None.
Proof.
  intros Hbare.
  destruct (extractOutcodeFromPostcode s) as [oc|] eqn:Hoc; [exfalso|done].
  apply extractOutcodeFromPostcode_inv in Hoc as (q & Hq & Htext & _).
  destruct (bare_outcode_trim _ Hbare) as [Htrim _]. rewrite Htrim in Htext.
  apply bare_outcode_inv in Hbare
    as (a & d & l & -> & [Ha ?] & [Hd ?] & [Hl ?]).
  apply well_formed_postcode_inv in Hq
    as ([? ?] & [Hdi ?] & [? ?] & [? ?] & i & l1 & l2 & Hinc & _).
  pose proof (f_equal String.length Htext) as Hlen.
  unfold postcode_text in *.
  rewrite toUpperCase_length, !length_app_str, Hinc in Hlen. simpl in Hlen.
  destruct q as [ar di su ga inc]; simpl in *.
  destruct a as [|a1 [|a2 [|]]]; simpl in *; try lia.
  destruct ar as [|c1 [|]]; simpl in *; try lia.
  destruct di as [|d1 [|]]; simpl in *; try lia.
  rewrite !app_cons in Htext. simpl in Htext.
  injection Htext as _ Hclash _.
  apply andb_prop in Ha as [_ [Ha2 _]%andb_prop].
  apply alpha_facts in Ha2 as (_ & _ & _ & _ & Hnd & _).
  apply andb_prop in Hdi as [Hd1 _]. congruence.
Qed.

(** ** The two paths on a serving pool *)

Lemma resolveTargeting_area db input :
  extractOutcodeFromPostcode input = None → trim input ≠ "" →
  ∃ r, resolveTargeting (Live db) input = Ok r
       ∧ postal_codes r
         = sort (array_from_set (select_area_outcodes (trim input) db)).
Proof.
  intros Hnone Htrim. unfold resolveTargeting.
  rewrite (collect_none _ _ Hnone). unfold collect_area.
  assert (input ≠ "") as Hinput by (by intros ->).
  unfold truthy. rewrite !bool_decide_eq_true_2 by done. simpl.
  case_decide as Hnil.
  - simpl. eexists. split; [done|]. by rewrite Hnil.
  - destruct (fetchOutcodeStats_total db
                (select_area_outcodes (trim input) db)) as [m ->].
    simpl. eauto.
Qed.

Lemma resolveTargeting_blank p input :
  trim input = "" →
  resolveTargeting p input = Ok (serialize [] []).
Proof.
  intros Htrim. unfold resolveTargeting.
  assert (extractOutcodeFromPostcode input = None) as Hnone.
  { unfold extractOutcodeFromPostcode. case_decide; [done|].
    by rewrite Htrim. }
  rewrite (collect_none _ _ Hnone). unfold collect_area.
  unfold truthy at 2. rewrite Htrim.
  rewrite (bool_decide_eq_false_2 ("" ≠ "")) by (by intros ?).
  by rewrite andb_false_r.
Qed.

Lemma resolveTargeting_postcode db input oc :
  extractOutcodeFromPostcode input = Some oc →
  ∃ r, resolveTargeting (Live db) input = Ok r ∧ postal_codes r = [oc].
Proof.
  intros Hoc. unfold resolveTargeting.
  rewrite (collect_some _ _ _ Hoc). unfold collect_postcode.
  destruct (fetchOutcodeStats_total db [oc]) as [m ->]. simpl.
  destruct (m !! oc); simpl; eauto.
Qed.

(** Every well-formed postcode, in any letter case and with or without the
    inner space, resolves to its upper-cased outcode alone. *)
Lemma resolveTargeting_full_postcode db q :
  well_formed_postcode q = true →
  ∃ r, resolveTargeting (Live db) (postcode_text q) = Ok r
       ∧ postal_codes r = [toUpperCase (postcode_outcode q)].
Proof.
  intros Hq. by apply resolveTargeting_postcode, extractOutcodeFromPostcode_full.
Qed.

(** A rejected query rejects the resolution. *)
Lemma resolveTargeting_broken b input :
  trim input ≠ "" →
  resolveTargeting (Broken b) input = Rejected "query failed".
Proof.
  intros Htrim. unfold resolveTargeting, collect.
  destruct (extractOutcodeFromPostcode input) as [oc|] eqn:Hoc.
  - unfold truthy. rewrite bool_decide_eq_true_2 by (by eapply extract_truthy).
    done.
  - unfold truthy at 1. unfold collect_area.
    assert (input ≠ "") as Hinput by (by intros ->).
    unfold truthy. by rewrite !bool_decide_eq_true_2 by done.
Qed.

(** C1. The parser has no case for the special postcode GIR 0AA, which the
    comment on its pattern says it handles: the text is not recognised, in
    either spelling, and the resolver treats it as an area name, so that no
    outcode GIR is returned.  (Every postcode of the regular shapes does
    resolve to its outcode: [resolveTargeting_full_postcode].) *)
Theorem gir_postcode_not_parsed :
  extractOutcodeFromPostcode "GIR 0AA" = None
  ∧ extractOutcodeFromPostcode "gir0aa" = None
  ∧ ∃ r, resolveTargeting (Live ayrshire_db) "GIR 0AA" = Ok r
         ∧ postal_codes r = [].
Proof.
  split; [by vm_compute|]. split; [by vm_compute|].
  eexists. split; [vm_compute; reflexivity|reflexivity].
Qed.

(** C4. A failing dataset is not caught by the resolver: on a pool that
    rejects its queries, [resolveTargeting] is itself rejected, for a
    postcode as for an area name, where [getDistrictsByCounty] answers the
    empty list. *)
Theorem resolver_propagates_query_failure :
  (∀ b, resolveTargeting (Broken b) "G64 1AB" = Rejected "query failed")
  ∧ (∀ b, resolveTargeting (Broken b) "Ayrshire" = Rejected "query failed")
  ∧ (∀ b, getDistrictsByCounty (Broken b) "Ayrshire" = []).
Proof.
  split_and!; intros []; by vm_compute.
Qed.

(** C8. The free-text expansion of the resolver wraps its text in [%]
    whatever the text holds: "%AYRSHIRE%" is searched as "%%AYRSHIRE%%", and
    "Ayr%", which read as it stands asks for a county starting with "Ayr",
    finds KA7 in "South Ayrshire"; [getDistrictsByCounty] does keep a text
    that holds a [%] as it is. *)
Theorem area_pattern_wrapped_twice :
  area_pattern "%AYRSHIRE%" = "%%AYRSHIRE%%"
  ∧ county_needle "%AYRSHIRE%" = "%AYRSHIRE%"
  ∧ like "Ayr%" "South Ayrshire" = false
  ∧ (∃ r, resolveTargeting (Live south_ayrshire_db) "Ayr%" = Ok r
          ∧ postal_codes r = ["KA7"])
  ∧ getDistrictsByCounty (Live south_ayrshire_db) "Ayr%" = [].
Proof.
  split_and!; try by vm_compute.
  eexists. split; [vm_compute; reflexivity|reflexivity].
Qed.

(** C2, as stated, fails: the bare outcode "KA10" resolves to nothing on a
    table without rows, and to nothing on the Ayrshire table either, where
    KA10 is a stored district but no administrative field holds that text. *)
Lemma bare_outcode_unresolved_without_match :
  bare_outcode "KA10" = true
  ∧ (∃ r, resolveTargeting (Live no_rows) "KA10" = Ok r ∧ postal_codes r = [])
  ∧ (∃ r, resolveTargeting (Live ayrshire_db) "KA10" = Ok r
          ∧ postal_codes r = []).
Proof.
  split; [by vm_compute|].
  split; eexists; (split; [vm_compute; reflexivity|reflexivity]).
Qed.

(** C2, amended. An input consisting only of a bare outcode is not read as a
    postcode: it is handled as an area name, so a match in the reference
    dataset is required.  Every outcode returned is the POSTCODE_DISTRICT of
    a row one of whose administrative fields contains the text, and nothing
    is returned when no row has such a field. *)
Theorem bare_outcode_needs_dataset_match db s :
  bare_outcode s = true →
  extractOutcodeFromPostcode s = None
  ∧ ∃ r, resolveTargeting (Live db) s = Ok r
         ∧ (∀ oc, oc ∈ postal_codes r →
              ∃ row, row ∈ os_open_names db
                     ∧ POSTCODE_DISTRICT row = Some oc
                     ∧ field_contains s row)
         ∧ ((∀ row, row ∈ os_open_names db → ¬ field_contains s row) →
            postal_codes r = []).
Proof.
  intros Hbare.
  pose proof (bare_outcode_not_postcode _ Hbare) as Hnone.
  destruct (bare_outcode_trim _ Hbare) as [Htrim Hne].
  destruct (bare_outcode_alnum _ Hbare) as [Hwild%alnum_not_wildcard _].
  split; [done|].
  destruct (resolveTargeting_area db s Hnone) as (r & Hr & Hpc);
    [by rewrite Htrim|].
  rewrite Htrim in Hpc. exists r. split; [done|].
  assert (∀ oc, oc ∈ postal_codes r →
            ∃ row, row ∈ os_open_names db ∧ POSTCODE_DISTRICT row = Some oc
                   ∧ field_contains s row) as Hsound.
  { intros oc. rewrite Hpc, sort_elem.
    intros (row & ? & ? & _ & Hm)%select_area_outcodes_sound.
    exists row. split_and!; [done..|]. by apply area_row_matches_spec. }
  split; [done|]. intros Hno.
  destruct (postal_codes r) as [|oc ocs]; [done|].
  destruct (Hsound oc) as (row & Hrow & _ & Hf); [by left|].
  by destruct (Hno row Hrow).
Qed.

Lemma bare_outcode_needs_dataset_match_witness :
  extractOutcodeFromPostcode "KA10" = None
  ∧ ∃ r, resolveTargeting (Live ayrshire_db) "KA10" = Ok r
         ∧ (∀ oc, oc ∈ postal_codes r →
              ∃ row, row ∈ os_open_names ayrshire_db
                     ∧ POSTCODE_DISTRICT row = Some oc
                     ∧ field_contains "KA10" row)
         ∧ ((∀ row, row ∈ os_open_names ayrshire_db →
               ¬ field_contains "KA10" row) →
            postal_codes r = []).
Proof.
  apply (bare_outcode_needs_dataset_match ayrshire_db "KA10").
  vm_compute. reflexivity.
Defined.

(** C3, as stated, fails.  The empty input yields nothing, although every
    field contains the empty text; "A_rshire" is contained in no field and
    yet finds the three Ayrshire outcodes, its underscore standing for any
    character; " Ayrshire " finds them too, its surrounding spaces being
    trimmed away, although no field contains the text with its spaces. *)
Lemma area_expansion_not_plain_substring :
  (extractOutcodeFromPostcode "" = None
   ∧ ci_substring "" "Ayrshire"
   ∧ ∃ r, resolveTargeting (Live ayrshire_db) "" = Ok r
          ∧ postal_codes r = [])
  ∧ (extractOutcodeFromPostcode "A_rshire" = None
     ∧ ¬ ci_substring "A_rshire" "Ayrshire"
     ∧ ∃ r, resolveTargeting (Live ayrshire_db) "A_rshire" = Ok r
            ∧ postal_codes r = ["G64"; "KA10"; "KA11"])
  ∧ (extractOutcodeFromPostcode " Ayrshire " = None
     ∧ ¬ ci_substring " Ayrshire " "Ayrshire"
     ∧ ∃ r, resolveTargeting (Live ayrshire_db) " Ayrshire " = Ok r
            ∧ postal_codes r = ["G64"; "KA10"; "KA11"]).
Proof.
  split_and!; try by vm_compute.
  - by apply contains_ci_spec.
  - eexists. split; [vm_compute; reflexivity|reflexivity].
  - rewrite <-contains_ci_spec. by vm_compute.
  - eexists. split; [vm_compute; reflexivity|reflexivity].
  - rewrite <-contains_ci_spec. by vm_compute.
  - eexists. split; [vm_compute; reflexivity|reflexivity].
Qed.

(** C3, amended. For every input that is not a full postcode and whose
    trimmed text is not empty and holds none of the characters [%], [_] and
    backslash, the resolver returns, sorted, the non-empty POSTCODE_DISTRICT
    values of the rows whose county/unitary, district/borough or region field
    contains the trimmed text as a case-insensitive substring, each once:
    every returned outcode is such a value, every such value is returned in
    one stored spelling, and no two returned outcodes are equal up to letter
    case.  An input matching no row yields the empty list. *)
Theorem area_expansion_matches_fields db input :
  extractOutcodeFromPostcode input = None →
  trim input ≠ "" →
  no_wildcard (trim input) = true →
  ∃ r, resolveTargeting (Live db) input = Ok r
       ∧ Sorted String.le (postal_codes r)
       ∧ NoDup (toUpperCase <$> postal_codes r)
       ∧ (∀ oc, oc ∈ postal_codes r →
            oc ≠ ""
            ∧ ∃ row, row ∈ os_open_names db
                     ∧ POSTCODE_DISTRICT row = Some oc
                     ∧ field_contains (trim input) row)
       ∧ (∀ row d, row ∈ os_open_names db →
            POSTCODE_DISTRICT row = Some d → d ≠ "" →
            field_contains (trim input) row →
            ∃ oc, oc ∈ postal_codes r ∧ toUpperCase oc = toUpperCase d)
       ∧ ((∀ row, row ∈ os_open_names db →
             ¬ field_contains (trim input) row) →
          postal_codes r = []).
Proof.
  intros Hnone Htrim Hwild.
  destruct (resolveTargeting_area db input Hnone Htrim) as (r & Hr & Hpc).
  exists r. split; [done|]. rewrite Hpc.
  assert (∀ oc, oc ∈ sort (array_from_set
                             (select_area_outcodes (trim input) db)) →
            oc ≠ "" ∧ ∃ row, row ∈ os_open_names db
                             ∧ POSTCODE_DISTRICT row = Some oc
                             ∧ field_contains (trim input) row) as Hsound.
  { intros oc. rewrite sort_elem.
    intros (row & ? & ? & ? & Hm)%select_area_outcodes_sound.
    split; [done|]. exists row. split_and!; [done..|].
    by apply area_row_matches_spec. }
  split_and!; [apply sort_Sorted| |done| |].
  - unfold sort.
    rewrite (stable_sort_perm _ _), array_from_set_fresh.
    + apply select_area_outcodes_NoDup.
    + eapply NoDup_fmap_1, select_area_outcodes_NoDup.
  - intros row d Hrow Hd Hne Hf%area_row_matches_spec; [|done].
    destruct (select_area_outcodes_complete _ _ _ _ Hrow Hd Hne Hf)
      as (oc & Hoc & Hcoll).
    exists oc. split; [by apply sort_elem|done].
  - intros Hno.
    destruct (sort _) as [|oc ocs]; [done|].
    destruct (Hsound oc) as (_ & row & Hrow & _ & Hf); [by left|].
    by destruct (Hno row Hrow).
Qed.

Lemma area_expansion_matches_fields_witness :
  ∃ r, resolveTargeting (Live ayrshire_db) "Ayrshire" = Ok r
       ∧ postal_codes r = ["G64"; "KA10"; "KA11"]
       ∧ Sorted String.le (postal_codes r)
       ∧ NoDup (toUpperCase <$> postal_codes r).
Proof.
  destruct (area_expansion_matches_fields ayrshire_db "Ayrshire")
    as (r & Hr & Hsorted & Hnd & _); [by vm_compute..|].
  exists r. split; [exact Hr|].
  split; [|split; [exact Hsorted|exact Hnd]].
  revert Hr. vm_compute. by intros [= <-].
Defined.

(** * Further properties *)

(** ** Trimming and case *)

Lemma upper_space c : Char.is_space (Char.upper c) = Char.is_space c.
Proof. by_cases_on_char c. Qed.




Lemma trimStart_idem s : trimStart (trimStart s) = trimStart s.
Proof.
  induction s as [|c s IH]; simpl; [done|].
  destruct (Char.is_space c) eqn:Hc; [done|]. simpl. by rewrite Hc.
Qed.

Lemma trimEnd_idem s : trimEnd (trimEnd s) = trimEnd s.
Proof.
  induction s as [|c s IH]; simpl; [done|].
  destruct (trimEnd s) as [|y t] eqn:Ht.
  - destruct (Char.is_space c) eqn:Hc; simpl; [done|]. by rewrite Hc.
  - simpl in *. by rewrite IH.
Qed.

Lemma trimStart_trimEnd s : trimStart (trimEnd s) = trimEnd (trimStart s).
Proof.
  induction s as [|c s IH]; [done|].
  cbn [trimStart]. destruct (Char.is_space c) eqn:Hc.
  - rewrite <-IH. cbn [trimEnd].
    destruct (trimEnd s) as [|y t]; simpl; by rewrite Hc.
  - cbn [trimEnd]. destruct (trimEnd s) as [|y t]; simpl;
      rewrite ?Hc; simpl; by rewrite ?Hc.
Qed.

Lemma trim_idem s : trim (trim s) = trim s.
Proof.
  unfold trim.
  by rewrite (trimStart_trimEnd (trimStart s)), trimStart_idem, trimEnd_idem.
Qed.

Lemma trimStart_upper s : trimStart (toUpperCase s) = toUpperCase (trimStart s).
Proof.
  induction s as [|c s IH]; simpl; [done|].
  rewrite upper_space. by destruct (Char.is_space c).
Qed.

Lemma trimEnd_upper s : trimEnd (toUpperCase s) = toUpperCase (trimEnd s).
Proof.
  induction s as [|c s IH]; simpl; [done|].
  rewrite IH, upper_space.
  destruct (trimEnd s); simpl; by destruct (Char.is_space c).
Qed.

Lemma trim_upper s : trim (toUpperCase s) = toUpperCase (trim s).
Proof. unfold trim. by rewrite trimStart_upper, trimEnd_upper. Qed.







Lemma toUpperCase_empty s : toUpperCase s = "" ↔ s = "".
Proof. by destruct s. Qed.

(** X1. The postcode parser answers the same for an input, for its trimmed
    form and for its upper-cased form. *)
Theorem extract_ignores_case_and_margins s :
  extractOutcodeFromPostcode (trim s) = extractOutcodeFromPostcode s
  ∧ extractOutcodeFromPostcode (toUpperCase s) = extractOutcodeFromPostcode s.
Proof.
  unfold extractOutcodeFromPostcode. split.
  - rewrite trim_idem. case_decide as Ht; case_decide as Hs; try done.
    + by rewrite Ht.
    + by subst s.
  - rewrite trim_upper, toUpperCase_idem.
    case_decide as Hu; case_decide as Hs; try done.
    + destruct Hs. by apply (proj1 (toUpperCase_empty s)).
    + by subst s.
Qed.

(** X2. Whenever the postcode parser answers, the outcode has two to five
    characters and the text that was matched, the trimmed input in upper
    case, is three or four characters longer (the incode and at most one
    white-space character). *)
Theorem extract_length_bounds input oc :
  extractOutcodeFromPostcode input = Some oc →
  2 ≤ String.length oc ≤ 5
  ∧ String.length oc + 3 ≤ String.length (toUpperCase (trim input))
    ≤ String.length oc + 4.
Proof.
  intros (q & Hq & Htext & ->)%extractOutcodeFromPostcode_inv.
  pose proof (postcode_outcode_alnum _ Hq) as [_ Hlen].
  apply (f_equal String.length) in Htext.
  rewrite postcode_text_split, !length_app_str in Htext.
  apply well_formed_postcode_inv in Hq
    as (_ & _ & _ & [_ ?] & d & l1 & l2 & Hinc & _).
  rewrite Hinc in Htext. simpl in Htext. lia.
Qed.

Lemma extract_length_bounds_witness :
  2 ≤ String.length "SW1A" ≤ 5
  ∧ String.length "SW1A" + 3
    ≤ String.length (toUpperCase (trim " sw1a 2aa "))
    ≤ String.length "SW1A" + 4.
Proof.
  apply (extract_length_bounds " sw1a 2aa " "SW1A"). vm_compute. reflexivity.
Defined.

(** ** The two postcode parsers *)

Lemma remove_spaces_app s t :
  remove_spaces (s +:+ t) = remove_spaces s +:+ remove_spaces t.
Proof.
  induction s as [|c s IH]; [done|]. rewrite app_cons. simpl.
  destruct (Char.is_space c); by rewrite IH.
Qed.

Lemma remove_spaces_none s :
  all_chars not_space s = true → remove_spaces s = s.
Proof.
  induction s as [|c s IH]; simpl; [done|].
  intros [Hc%negb_true_iff Hs]%andb_prop. by rewrite Hc, IH.
Qed.

Lemma remove_spaces_all s :
  all_chars Char.is_space s = true → remove_spaces s = "".
Proof.
  induction s as [|c s IH]; simpl; [done|].
  intros [Hc Hs]%andb_prop. by rewrite Hc, IH.
Qed.

Lemma alnum_all_not_space s :
  all_chars is_alnum s = true → all_chars not_space s = true.
Proof.
  apply all_chars_impl. intros c Hc. unfold not_space.
  by rewrite alnum_not_space.
Qed.

Lemma indexOf_space_none s :
  all_chars not_space s = true → indexOf_space s = None.
Proof.
  induction s as [|c s IH]; simpl; [done|].
  intros [Hc Hs]%andb_prop. rewrite (IH Hs).
  destruct (Ascii.eqb_spec c " "%char) as [->|]; [done|done].
Qed.

Lemma indexOf_space_at s t :
  all_chars not_space s = true →
  indexOf_space (s +:+ String " "%char t) = Some (String.length s).
Proof.
  induction s as [|c s IH]; [done|]. rewrite app_cons. simpl.
  intros [Hc Hs]%andb_prop. rewrite (IH Hs).
  destruct (Ascii.eqb_spec c " "%char) as [->|]; [done|done].
Qed.

Lemma slice_to_app s t : slice_to (String.length s) (s +:+ t) = s.
Proof.
  induction s as [|c s IH]; [by destruct t|].
  rewrite app_cons. simpl. by rewrite IH.
Qed.

Lemma app_inj_suffix_length a b a' b' :
  a +:+ b = a' +:+ b' → String.length b = String.length b' → a = a'.
Proof.
  intros Heq Hlen. apply (app_inj_length _ _ _ _ Heq).
  apply (f_equal String.length) in Heq. rewrite !length_app_str in Heq. lia.
Qed.

Lemma derive_regex_sound s gs :
  match_atoms DERIVE_REGEX s = Some gs →
  ∃ g1 g2, s = g1 +:+ g2 ∧ group1 gs = Some g1 ∧ String.length g2 = 3.
Proof.
  intros [-> Hfits]%match_atoms_sound. unfold DERIVE_REGEX in Hfits.
  apply Forall2_cons_inv_l in Hfits as (a & ? & [??] & Hfits & ->).
  apply Forall2_cons_inv_l in Hfits as (b & ? & [??] & Hfits & ->).
  apply Forall2_cons_inv_l in Hfits as (c & ? & [??] & Hfits & ->).
  apply Forall2_cons_inv_l in Hfits as (d & ? & [??] & Hfits & ->).
  apply Forall2_cons_inv_l in Hfits as (e & ? & [??] & Hfits & ->).
  apply Forall2_nil_inv_l in Hfits as ->.
  exists (a +:+ b +:+ c), (d +:+ e). split_and!.
  - unfold concat_all. simpl. by rewrite app_empty_r, !app_assoc_str.
  - done.
  - rewrite length_app_str. lia.
Qed.

(** X3. On a well-formed postcode written with one space or none before the
    incode, the feed path's [deriveOutcodeFromPostcode] and the resolver's
    [extractOutcodeFromPostcode] give the same outcode. *)
Theorem derive_agrees_with_extract q :
  well_formed_postcode q = true →
  pc_gap q = "" ∨ pc_gap q = " " →
  extractOutcodeFromPostcode (postcode_text q)
  = Some (deriveOutcodeFromPostcode (postcode_text q)).
Proof.
  intros Hq Hgap. rewrite (extractOutcodeFromPostcode_full _ Hq). f_equal.
  pose proof (upper_parts_well_formed _ Hq) as Hu.
  destruct (postcode_text_trim _ Hq) as [Hne _].
  destruct (postcode_text_trim _ Hu) as [_ Htrim].
  destruct (postcode_outcode_alnum _ Hu) as [Hoc%alnum_all_not_space Hlen].
  unfold deriveOutcodeFromPostcode. rewrite decide_False by done. cbv zeta.
  rewrite <-upper_parts_text, Htrim, <-upper_parts_outcode.
  pose proof (well_formed_postcode_inv _ Hu)
    as (_ & _ & _ & [Hsp _] & d & l1 & l2 & Hinc & Hd & Hl1 & Hl2).
  assert (all_chars not_space (pc_incode (upper_parts q)) = true) as Hinc_ns.
  { rewrite Hinc. simpl. unfold not_space.
    destruct (digit_facts _ Hd) as (_ & -> & _).
    destruct (alpha_facts _ Hl1) as (_ & -> & _).
    by destruct (alpha_facts _ Hl2) as (_ & -> & _). }
  assert (String.length (pc_incode (upper_parts q)) = 3) as Hinc_len
    by by rewrite Hinc.
  assert (pc_gap (upper_parts q) = pc_gap q) as Hgap_u
    by (simpl; destruct Hgap as [-> | ->]; done).
  destruct (match_atoms DERIVE_REGEX _ ≫= group1) as [g|] eqn:Hm.
  - destruct (match_atoms DERIVE_REGEX _) as [gs|] eqn:Hgs; [|done].
    simpl in Hm. apply derive_regex_sound in Hgs as (g1 & g2 & Heq & Hg & ?).
    assert (g = g1) as -> by congruence.
    rewrite postcode_text_split, !remove_spaces_app in Heq.
    rewrite (remove_spaces_all _ Hsp), app_empty_l in Heq.
    rewrite !remove_spaces_none in Heq by done.
    eapply app_inj_suffix_length; [exact Heq|lia].
  - rewrite postcode_text_split, Hgap_u.
    destruct Hgap as [-> | ->].
    + rewrite app_empty_l, indexOf_space_none
        by (by rewrite all_chars_app, Hoc, Hinc_ns).
      rewrite length_app_str, Hinc_len.
      replace (3 <? _) with true by (symmetry; apply Nat.ltb_lt; lia).
      replace (String.length (postcode_outcode (upper_parts q)) + 3 - 3)
        with (String.length (postcode_outcode (upper_parts q))) by lia.
      symmetry. apply slice_to_app.
    + change (" " +:+ pc_incode (upper_parts q))
        with (String " "%char (pc_incode (upper_parts q))).
      rewrite indexOf_space_at by done.
      destruct (String.length (postcode_outcode (upper_parts q))) as [|n] eqn:Hn;
        [lia|].
      rewrite <-Hn. symmetry. apply slice_to_app.
Qed.

Lemma derive_agrees_with_extract_witness :
  extractOutcodeFromPostcode "a12b 1cd"
  = Some (deriveOutcodeFromPostcode "a12b 1cd").
Proof.
  apply (derive_agrees_with_extract
           {| pc_area := "a"; pc_district := "12"; pc_sub := "b";
              pc_gap := " "; pc_incode := "1cd" |}).
  - vm_compute. reflexivity.
  - right. reflexivity.
Defined.

(** ** LIKE under UPPER *)

Lemma upper_wild c :
  Ascii.eqb (Char.upper c) "%"%char = Ascii.eqb c "%"%char
  ∧ Ascii.eqb (Char.upper c) "_"%char = Ascii.eqb c "_"%char
  ∧ Ascii.eqb (Char.upper c) "\"%char = Ascii.eqb c "\"%char.
Proof. by_cases_on_char c. Qed.

Lemma any_suffix_upper f g s :
  (∀ t, f (toUpperCase t) = g t) →
  any_suffix f (toUpperCase s) = any_suffix g s.
Proof.
  intros Hfg. induction s as [|c s IH]; simpl.
  - by rewrite <-(Hfg "").
  - by rewrite <-(Hfg (String c s)), IH.
Qed.

Lemma literal_upper c f g s :
  (∀ t, f (toUpperCase t) = g t) →
  literal (Char.upper c) f (toUpperCase s) = literal c g s.
Proof.
  intros Hfg. destruct s as [|x s]; simpl; [done|].
  unfold weight. by rewrite !upper_idem, <-Hfg.
Qed.

Lemma like_upper p s : like (toUpperCase p) (toUpperCase s) = like p s.
Proof.
  remember (String.length p) as n eqn:Hn. revert p s Hn.
  induction n as [n IH] using lt_wf_ind. intros [|c p] s Hn.
  - simpl. destruct s; done.
  - simpl in Hn. cbn [toUpperCase like].
    destruct (upper_wild c) as (-> & -> & ->).
    destruct (Ascii.eqb c "%"%char).
    { apply any_suffix_upper. intros t. apply (IH (String.length p)); [lia|done]. }
    destruct (Ascii.eqb c "_"%char).
    { destruct s as [|x s]; simpl; [done|].
      apply (IH (String.length p)); [lia|done]. }
    destruct (Ascii.eqb c "\"%char) eqn:Hesc.
    + destruct p as [|e p].
      * apply literal_upper. intros t. by destruct t.
      * cbn [toUpperCase]. apply literal_upper. intros t.
        apply (IH (String.length p)); [simpl in Hn; lia|done].
    + apply literal_upper. intros t. apply (IH (String.length p)); [lia|done].
Qed.

Lemma no_wildcard_upper t : no_wildcard (toUpperCase t) = no_wildcard t.
Proof.
  induction t as [|c t IH]; simpl; [done|].
  destruct (upper_wild c) as (-> & -> & ->). by rewrite IH.
Qed.

Lemma no_wildcard_trimStart t :
  no_wildcard t = true → no_wildcard (trimStart t) = true.
Proof.
  induction t as [|c t IH]; simpl; [done|].
  intros H. destruct (Char.is_space c); [|done].
  apply IH. by apply andb_prop in H as [_ ?].
Qed.

Lemma no_wildcard_trimEnd t :
  no_wildcard t = true → no_wildcard (trimEnd t) = true.
Proof.
  induction t as [|c t IH]; simpl; [done|].
  intros [Hc Ht]%andb_prop. specialize (IH Ht).
  destruct (trimEnd t) as [|y u].
  - destruct (Char.is_space c); [done|]. simpl. by rewrite Hc.
  - change (no_wildcard (String c (String y u)))
      with (negb (Ascii.eqb c "%"%char) && negb (Ascii.eqb c "_"%char)
            && negb (Ascii.eqb c "\"%char) && no_wildcard (String y u)).
    by rewrite Hc, IH.
Qed.

Lemma no_wildcard_trim t : no_wildcard t = true → no_wildcard (trim t) = true.
Proof. intros. by apply no_wildcard_trimEnd, no_wildcard_trimStart. Qed.

Lemma no_wildcard_no_percent t :
  no_wildcard t = true → includes_percent t = false.
Proof.
  induction t as [|c t IH]; simpl; [done|].
  rewrite !andb_true_iff, !negb_true_iff. intros [[[-> _] _] Ht]. by apply IH.
Qed.

(** The WHERE clause of the county lookup on a text free of wildcards. *)
Lemma county_row_matches t r :
  no_wildcard t = true →
  like_col (toUpperCase (county_needle t)) (toUpperCase <$> COUNTY_UNITARY r)
  = true
  ↔ ∃ v, COUNTY_UNITARY r = Some v ∧ ci_substring (trim t) v.
Proof.
  intros Ht. unfold county_needle. rewrite (no_wildcard_no_percent _ Ht).
  change ("%" +:+ trim t +:+ "%") with (area_pattern (trim t)).
  destruct (COUNTY_UNITARY r) as [v|].
  - change (like (toUpperCase (area_pattern (trim t))) (toUpperCase v) = true
            ↔ ∃ v0, Some v = Some v0 ∧ ci_substring (trim t) v0).
    rewrite like_upper, like_area_pattern by by apply no_wildcard_trim.
    rewrite contains_ci_spec. naive_solver.
  - change (false = true ↔ ∃ v0, None = Some v0 ∧ ci_substring (trim t) v0).
    naive_solver.
Qed.

Lemma getDistrictsByCounty_live db t :
  trim t ≠ "" →
  getDistrictsByCounty (Live db) t
  = upper_of_column <$> select_county_districts (county_needle t) db.
Proof.
  intros Htrim. unfold getDistrictsByCounty. simpl.
  assert (t ≠ "") as Ht by (by intros ->).
  by rewrite !bool_decide_eq_true_2 by done.
Qed.

Lemma upper_of_column_key x y :
  coll_key x = coll_key y → upper_of_column x = upper_of_column y.
Proof.
  destruct x, y; simpl; try done. unfold upper_of_column, collate. simpl.
  by intros [= ->].
Qed.

(** X4. For a text without LIKE wildcards, the county lookup reports exactly
    the upper-cased districts of the rows whose county contains the trimmed
    text, letter case apart; the district of a row that stores none is
    reported as "NULL". *)
Theorem county_lookup_reports_matching_rows db t d :
  trim t ≠ "" → no_wildcard t = true →
  d ∈ getDistrictsByCounty (Live db) t
  ↔ ∃ row v, row ∈ os_open_names db ∧ COUNTY_UNITARY row = Some v
             ∧ ci_substring (trim t) v
             ∧ d = upper_of_column (POSTCODE_DISTRICT row).
Proof.
  intros Htrim Ht. rewrite getDistrictsByCounty_live by done.
  unfold select_county_districts. rewrite list_elem_of_fmap. split.
  - intros (x & -> & Hx). rewrite order_by_elem in Hx.
    apply elem_of_distinct in Hx as [Hx _].
    apply list_elem_of_fmap in Hx as (row & -> & Hrow).
    apply list_elem_of_filter in Hrow as [Hm Hrow].
    apply Is_true_true, county_row_matches in Hm as (v & ? & ?); [|done].
    by exists row, v.
  - intros (row & v & Hrow & Hv & Hsub & ->).
    assert (POSTCODE_DISTRICT row
            ∈ POSTCODE_DISTRICT <$>
                filter (λ r, like_col (toUpperCase (county_needle t))
                               (toUpperCase <$> COUNTY_UNITARY r))
                       (os_open_names db)) as Hin.
    { apply list_elem_of_fmap. exists row. split; [done|].
      apply list_elem_of_filter. split; [|done].
      apply Is_true_true, county_row_matches; eauto. }
    apply (distinct_complete coll_key _ []) in Hin
      as [?%elem_of_nil|(y & Hy & Hkey)]; [done|].
    exists y. split; [by apply upper_of_column_key|].
    by rewrite order_by_elem.
Qed.

Lemma county_lookup_reports_matching_rows_witness :
  "KA10" ∈ getDistrictsByCounty (Live ayrshire_db) " ayr "
  ↔ ∃ row v, row ∈ os_open_names ayrshire_db ∧ COUNTY_UNITARY row = Some v
             ∧ ci_substring (trim " ayr ") v
             ∧ "KA10" = upper_of_column (POSTCODE_DISTRICT row).
Proof.
  apply (county_lookup_reports_matching_rows ayrshire_db " ayr " "KA10");
    vm_compute; [discriminate|reflexivity].
Defined.

Lemma blank_guard t :
  trim t = "" → truthy (Some t) && truthy (Some (trim t)) = false.
Proof.
  intros ->. unfold truthy.
  rewrite (bool_decide_eq_false_2 ("" ≠ "")) by (by intros ?).
  apply andb_false_r.
Qed.

Lemma coll_key_upper_of_column (l : list (option string)) :
  Forall is_Some l → coll_key <$> l = Some <$> (upper_of_column <$> l).
Proof.
  induction 1 as [|x l [d ->] _ IH]; [done|]. csimpl. by rewrite IH.
Qed.

Lemma sorted_upper_of_column (l : list (option string)) :
  Forall is_Some l → Sorted (by_key coll_key) l →
  Sorted String.le (upper_of_column <$> l).
Proof.
  intros Hall Hs. induction Hs as [|x l Hs IH Hhd]; csimpl; [constructor|].
  apply Forall_cons in Hall as [[d ->] Hall]. constructor; [by apply IH|].
  destruct Hhd as [|y l Hxy]; csimpl; constructor.
  apply Forall_cons in Hall as [[e ->] _]. exact Hxy.
Qed.

(** X5. The county lookup answers upper-cased districts; on a table whose
    rows all store a district, the answer is sorted in ascending order and
    holds no district twice, stored spellings that differ in letter case
    being merged. *)
Theorem county_lookup_sorted_distinct db t :
  (∀ d, d ∈ getDistrictsByCounty (Live db) t → toUpperCase d = d)
  ∧ ((∀ row, row ∈ os_open_names db → is_Some (POSTCODE_DISTRICT row)) →
     NoDup (getDistrictsByCounty (Live db) t)
     ∧ Sorted String.le (getDistrictsByCounty (Live db) t)).
Proof.
  destruct (decide (trim t = "")) as [Hblank|Htrim].
  { assert (getDistrictsByCounty (Live db) t = []) as ->.
    { unfold getDistrictsByCounty. cbn [ensurePool].
      by rewrite blank_guard. }
    split; [by intros d ?%elem_of_nil|]. intros _. split; constructor. }
  rewrite getDistrictsByCounty_live by done. split.
  - intros d (x & -> & _)%list_elem_of_fmap. apply toUpperCase_idem.
  - intros Hall. unfold select_county_districts.
    set (cands := POSTCODE_DISTRICT <$> filter _ (os_open_names db)).
    assert (Forall is_Some (order_by coll_key (distinct coll_key [] cands)))
      as Hsome.
    { apply Forall_forall. intros x Hx. rewrite order_by_elem in Hx.
      apply elem_of_distinct in Hx as [Hx _].
      apply list_elem_of_fmap in Hx as (row & -> & Hrow).
      apply list_elem_of_filter in Hrow as [_ Hrow]. by apply Hall. }
    split.
    + eapply (NoDup_fmap_1 Some). rewrite <-coll_key_upper_of_column by done.
      unfold order_by. rewrite (stable_sort_perm _ _).
      apply distinct_keys_NoDup.
    + apply sorted_upper_of_column; [done|].
      apply stable_sort_Sorted; apply _.
Qed.

Lemma county_lookup_sorted_distinct_witness :
  getDistrictsByCounty (Live ayrshire_db) "ayr" = ["G64"; "KA10"; "KA11"]
  ∧ NoDup (getDistrictsByCounty (Live ayrshire_db) "ayr")
  ∧ Sorted String.le (getDistrictsByCounty (Live ayrshire_db) "ayr").
Proof.
  split; [vm_compute; reflexivity|].
  apply (proj2 (county_lookup_sorted_distinct ayrshire_db "ayr")).
  intros row Hrow. vm_compute in Hrow.
  repeat (apply elem_of_cons in Hrow as [->|Hrow]; [by eexists|]).
  by apply elem_of_nil in Hrow.
Defined.

(** X6. The two lookups of the MySQL adapter never fail: on a pool whose
    connection check or queries fail, and on a blank text, they answer the
    empty list. *)
Theorem adapter_lookups_degrade_to_empty :
  (∀ b t, getDistrictsByCounty (Broken b) t = []
          ∧ getByDistrictPrefix (Broken b) t = [])
  ∧ (∀ p t, trim t = "" →
       getDistrictsByCounty p t = [] ∧ getByDistrictPrefix p t = []).
Proof.
  split.
  - intros b t. unfold getDistrictsByCounty, getByDistrictPrefix.
    destruct b; simpl; [|done].
    by destruct (negb _).
  - intros p t Hblank. unfold getDistrictsByCounty, getByDistrictPrefix.
    destruct (ensurePool p); [|done].
    by rewrite blank_guard.
Qed.

Lemma adapter_lookups_degrade_to_empty_witness :
  getDistrictsByCounty (Live ayrshire_db) "   " = []
  ∧ getByDistrictPrefix (Live ayrshire_db) "   " = [].
Proof.
  apply (proj2 adapter_lookups_degrade_to_empty (Live ayrshire_db) "   ").
  vm_compute. reflexivity.
Defined.

Lemma prefix_ci_upper t s :
  prefix_ci (toUpperCase t) (toUpperCase s) = prefix_ci t s.
Proof.
  revert s. induction t as [|c t IH]; intros [|x s]; simpl; try done.
  by rewrite !upper_idem, IH.
Qed.

Lemma prefix_row_matches_spec t r :
  no_wildcard t = true →
  prefix_row_matches t r = true
  ↔ ∃ d, POSTCODE_DISTRICT r = Some d ∧ ci_prefix t d.
Proof.
  intros Ht. unfold prefix_row_matches, ci_prefix.
  destruct (POSTCODE_DISTRICT r) as [d|].
  - change (like (toUpperCase t +:+ "%") (toUpperCase d) = true
            ↔ ∃ d0, Some d = Some d0
                    ∧ ∃ mid post, d0 = mid +:+ post
                                  ∧ toUpperCase mid = toUpperCase t).
    rewrite like_prefix by by rewrite no_wildcard_upper.
    rewrite prefix_ci_upper, prefix_ci_spec. naive_solver.
  - change (false = true
            ↔ ∃ d0, None = Some d0
                    ∧ ∃ mid post, d0 = mid +:+ post
                                  ∧ toUpperCase mid = toUpperCase t).
    naive_solver.
Qed.

(** X7. For a prefix without LIKE wildcards, the prefix lookup returns at
    most 2000 rows, each a row of the table whose district starts with the
    trimmed prefix, letter case apart; when the table has no more than 2000
    rows it returns every such row. *)
Theorem prefix_lookup_returns_matching_rows db t :
  trim t ≠ "" → no_wildcard t = true →
  length (getByDistrictPrefix (Live db) t) ≤ 2000
  ∧ (∀ r, r ∈ getByDistrictPrefix (Live db) t →
       r ∈ os_open_names db
       ∧ ∃ d, POSTCODE_DISTRICT r = Some d ∧ ci_prefix (trim t) d)
  ∧ (length (os_open_names db) ≤ 2000 →
     ∀ r d, r ∈ os_open_names db → POSTCODE_DISTRICT r = Some d →
            ci_prefix (trim t) d → r ∈ getByDistrictPrefix (Live db) t).
Proof.
  intros Htrim Ht. pose proof (no_wildcard_trim _ Ht) as Htt.
  assert (t ≠ "") as Hne by (by intros ->).
  assert (getByDistrictPrefix (Live db) t = select_by_prefix (trim t) db) as ->.
  { unfold getByDistrictPrefix. simpl.
    by rewrite !bool_decide_eq_true_2 by done. }
  unfold select_by_prefix. split_and!.
  - rewrite length_take. lia.
  - intros r Hr. apply (subseteq_take 2000) in Hr.
    apply list_elem_of_filter in Hr as [Hm Hr]. split; [done|].
    by apply Is_true_true, prefix_row_matches_spec in Hm.
  - intros Hsmall r d Hr Hd Hpre.
    rewrite take_ge by (etrans; [apply length_filter|done]).
    apply list_elem_of_filter. split; [|done].
    apply Is_true_true, prefix_row_matches_spec; eauto.
Qed.

Lemma prefix_lookup_returns_matching_rows_witness :
  getByDistrictPrefix (Live glasgow_db) " g6 "
  = [ place "G64" "East Dunbartonshire"; place "g6" "Glasgow" ]
  ∧ length (getByDistrictPrefix (Live glasgow_db) " g6 ") ≤ 2000.
Proof.
  split; [vm_compute; reflexivity|].
  apply (prefix_lookup_returns_matching_rows glasgow_db " g6 ");
    vm_compute; [discriminate|reflexivity].
Defined.

(** X8. The county lookup and the resolver agree on county matches: for a
    text that is no postcode and holds no LIKE wildcard, the district of
    every row whose county contains the trimmed text is reported by
    [getDistrictsByCounty] in upper case and, if it is not empty, returned by
    [resolveTargeting] in one of its stored spellings. *)
Theorem county_lookup_within_resolution db t row v d :
  extractOutcodeFromPostcode t = None →
  trim t ≠ "" → no_wildcard t = true →
  row ∈ os_open_names db → COUNTY_UNITARY row = Some v →
  ci_substring (trim t) v → POSTCODE_DISTRICT row = Some d →
  toUpperCase d ∈ getDistrictsByCounty (Live db) t
  ∧ (d ≠ "" →
     ∃ r oc, resolveTargeting (Live db) t = Ok r ∧ oc ∈ postal_codes r
             ∧ toUpperCase oc = toUpperCase d).
Proof.
  intros Hnone Htrim Ht Hrow Hv Hsub Hd. split.
  - rewrite getDistrictsByCounty_live by done.
    unfold select_county_districts.
    assert (Some d
            ∈ POSTCODE_DISTRICT <$>
                filter (λ r, like_col (toUpperCase (county_needle t))
                               (toUpperCase <$> COUNTY_UNITARY r))
                       (os_open_names db)) as Hin.
    { apply list_elem_of_fmap. exists row. split; [done|].
      apply list_elem_of_filter. split; [|done].
      apply Is_true_true, county_row_matches; eauto. }
    apply (distinct_complete coll_key _ []) in Hin
      as [?%elem_of_nil|(y & Hy & Hkey)]; [done|].
    apply list_elem_of_fmap. exists y.
    split; [by rewrite (upper_of_column_key _ _ Hkey)|].
    by rewrite order_by_elem.
  - intros Hne.
    destruct (resolveTargeting_area db t Hnone Htrim) as (r & Hr & Hpc).
    assert (area_row_matches (trim t) row = true) as Hm.
    { apply area_row_matches_spec; [by apply no_wildcard_trim|].
      exists v. eauto. }
    destruct (select_area_outcodes_complete _ _ _ _ Hrow Hd Hne Hm)
      as (oc & Hoc & Hcoll).
    exists r, oc. split; [done|]. split; [|done].
    rewrite Hpc. by apply sort_elem.
Qed.

Lemma county_lookup_within_resolution_witness :
  "KA10 " ∈ getDistrictsByCounty (Live untidy_db) "Ayrshire"
  ∧ ("ka10 " ≠ "" →
     ∃ r oc, resolveTargeting (Live untidy_db) "Ayrshire" = Ok r
             ∧ oc ∈ postal_codes r
             ∧ toUpperCase oc = toUpperCase "ka10 ").
Proof.
  apply (county_lookup_within_resolution untidy_db "Ayrshire"
           (place "ka10 " "Ayrshire") "Ayrshire" "ka10 ").
  - vm_compute. reflexivity.
  - vm_compute. discriminate.
  - vm_compute. reflexivity.
  - vm_compute. left.
  - reflexivity.
  - apply contains_ci_spec. vm_compute. reflexivity.
  - reflexivity.
Defined.

(** ** The resolver on its edge cases *)

(** X9. On a pool that rejects its queries the resolver resolves exactly the
    blank locations, to the empty result; every other location is rejected
    with the query's failure. *)
Theorem resolver_on_failing_pool b input :
  (trim input = "" →
   resolveTargeting (Broken b) input = Ok (serialize [] []))
  ∧ (trim input ≠ "" →
     resolveTargeting (Broken b) input = Rejected "query failed").
Proof.
  split; [apply resolveTargeting_blank|apply resolveTargeting_broken].
Qed.

Lemma resolver_on_failing_pool_witness :
  resolveTargeting (Broken true) "  " = Ok (serialize [] [])
  ∧ resolveTargeting (Broken true) "Ayrshire" = Rejected "query failed".
Proof.
  split.
  - apply (proj1 (resolver_on_failing_pool true "  ")). vm_compute. reflexivity.
  - apply (proj2 (resolver_on_failing_pool true "Ayrshire")).
    vm_compute. discriminate.
Defined.

(** X10. A well-formed postcode resolves to its upper-cased outcode alone,
    whatever the place table holds (a county whose name contains the text
    does not matter); the coverage is the entry of a stats row stored under
    exactly that outcode, and it is empty only when the stats table has no
    such row. *)
Theorem postcode_resolution db q :
  well_formed_postcode q = true →
  ∃ r, resolveTargeting (Live db) (postcode_text q) = Ok r
       ∧ postal_codes r = [toUpperCase (postcode_outcode q)]
       ∧ meta_bulk_text (platform_serializations r)
         = toUpperCase (postcode_outcode q)
       ∧ ((coverage r = []
           ∧ ∀ row, row ∈ postcode_district_stats db →
                    st_outcode row ≠ toUpperCase (postcode_outcode q))
          ∨ ∃ row, row ∈ postcode_district_stats db
                   ∧ st_outcode row = toUpperCase (postcode_outcode q)
                   ∧ coverage r = [item_of_row row]).
Proof.
  intros Hq. pose proof (extractOutcodeFromPostcode_full _ Hq) as Hoc.
  set (oc := toUpperCase (postcode_outcode q)) in *.
  unfold resolveTargeting. rewrite (collect_some _ _ _ Hoc).
  unfold collect_postcode.
  destruct (fetchOutcodeStats_live db [oc]) as (m & -> & Hsound & Hall).
  simpl. destruct (m !! oc) as [e|] eqn:He.
  - eexists. split; [done|]. split; [done|]. split; [done|]. right.
    destruct (Hsound _ _ He) as (row & ? & ? & ->). by exists row.
  - eexists. split; [done|]. split; [done|]. split; [done|]. left.
    split; [done|]. intros row Hrow Heq.
    destruct (Hall row Hrow) as [e He']; [rewrite Heq; by left|].
    rewrite Heq in He'. congruence.
Qed.

Lemma postcode_resolution_witness :
  ∃ r, resolveTargeting (Live ayrshire_db) "ka10 1ab" = Ok r
       ∧ postal_codes r = ["KA10"]
       ∧ coverage r = [item_of_row (stats "KA10" (Some 4.5%Q) (Some 9%Q))].
Proof.
  destruct (postcode_resolution ayrshire_db
              {| pc_area := "ka"; pc_district := "10"; pc_sub := "";
                 pc_gap := " "; pc_incode := "1ab" |})
    as (r & Hr & Hpc & _); [vm_compute; reflexivity|].
  exists r. split; [exact Hr|]. split; [exact Hpc|].
  revert Hr. vm_compute. by intros [= <-].
Defined.

Lemma stats_map_has db outcodes m oc :
  fetchOutcodeStats (Live db) outcodes = Ok m → oc ∈ outcodes →
  is_Some (m !! oc) ↔ oc ∈ st_outcode <$> postcode_district_stats db.
Proof.
  destruct (fetchOutcodeStats_live db outcodes) as (m' & -> & Hsound & Hall).
  intros [= <-] Hoc. rewrite list_elem_of_fmap. split.
  - intros [e (row & ? & ? & _)%Hsound]. by exists row.
  - intros (row & -> & Hrow). by apply Hall.
Qed.

Lemma filter_agree {A} (P Q : A → Prop) `{!∀ x, Decision (P x)}
    `{!∀ x, Decision (Q x)} (l : list A) :
  (∀ x, x ∈ l → P x ↔ Q x) → filter P l = filter Q l.
Proof.
  induction l as [|x l IH]; intros Hl; [done|].
  rewrite !filter_cons, IH by (intros y ?; apply Hl; by right).
  destruct (Hl x) as [H1 H2]; [by left|].
  destruct (decide (P x)), (decide (Q x)); tauto.
Qed.

Lemma collect_cov_outcodes db input ocs cov :
  collect (Live db) input = Ok (ocs, cov) →
  outcode <$> cov
  = filter (λ oc, oc ∈ st_outcode <$> postcode_district_stats db) ocs.
Proof.
  destruct (extractOutcodeFromPostcode input) as [oc|] eqn:Hoc.
  - rewrite (collect_some _ _ _ Hoc). unfold collect_postcode.
    destruct (fetchOutcodeStats (Live db) [oc]) as [m|] eqn:Hm; [|done]. simpl.
    pose proof (stats_map_has _ _ _ oc Hm) as Hhas.
    destruct (m !! oc) as [e|] eqn:He; intros [= <- <-];
      rewrite filter_cons, filter_nil.
    + rewrite decide_True by (apply Hhas; [by left|by eexists]).
      csimpl. by rewrite (stats_map_outcode _ _ _ _ _ Hm He).
    + rewrite decide_False; [done|].
      intros [??]%Hhas; [done|by left].
  - rewrite (collect_none _ _ Hoc). unfold collect_area.
    destruct (truthy _ && truthy _); [|by intros [= <- <-]].
    simpl. case_decide; [by intros [= <- <-]|].
    destruct (fetchOutcodeStats _ _) as [m|] eqn:Hm; [|done].
    intros [= <- <-].
    rewrite omap_lookup_items
      by (intros ??; by apply (stats_map_outcode _ _ _ _ _ Hm)).
    apply filter_agree. intros oc Hin. by apply (stats_map_has _ _ _ _ Hm).
Qed.

(** X11. The coverage of a resolution misses exactly the outcodes without
    statistics: the outcodes of its entries are, up to order, those elements
    of [postal_codes] under which the stats table stores a row. *)
Theorem coverage_is_postal_codes_with_stats db input r :
  resolveTargeting (Live db) input = Ok r →
  outcode <$> coverage r
  ≡ₚ filter (λ oc, oc ∈ st_outcode <$> postcode_district_stats db)
       (postal_codes r).
Proof.
  intros (ocs & cov & Hc & ->)%resolveTargeting_inv. simpl.
  pose proof (collect_inv _ _ _ _ Hc) as (Hnd & _ & _).
  unfold sort. rewrite !(stable_sort_perm _ _), array_from_set_fresh by done.
  by rewrite (collect_cov_outcodes _ _ _ _ Hc).
Qed.

Lemma coverage_is_postal_codes_with_stats_witness :
  ∃ r, resolveTargeting (Live ayrshire_db) "Ayrshire" = Ok r
       ∧ postal_codes r = ["G64"; "KA10"; "KA11"]
       ∧ outcode <$> coverage r
         ≡ₚ filter (λ oc, oc ∈ st_outcode
                             <$> postcode_district_stats ayrshire_db)
              (postal_codes r).
Proof.
  eexists. split; [vm_compute; reflexivity|]. split; [reflexivity|].
  apply (coverage_is_postal_codes_with_stats ayrshire_db "Ayrshire").
  vm_compute. reflexivity.
Defined.

(** X12. The coverage lookup answers an empty request with the empty mapping
    without a query, so also on a failing pool; and it files entries only
    under outcodes that were requested, letter case apart. *)
Theorem coverage_lookup_keys_requested p outcodes :
  fetchOutcodeStats p [] = Ok ∅
  ∧ ∀ m k, fetchOutcodeStats p outcodes = Ok m → is_Some (m !! k) →
           ∃ oc, oc ∈ outcodes ∧ toUpperCase k = toUpperCase oc.
Proof.
  split; [done|]. intros m k Hm [e He]. destruct p as [db|b].
  - unfold fetchOutcodeStats in Hm. case_decide; injection Hm as <-.
    { by rewrite lookup_empty in He. }
    apply stats_fold_lookup in He as [He|(row & Hrow & <- & _)].
    { by rewrite lookup_empty in He. }
    apply elem_of_select_stats in Hrow as (_ & oc & ? & ?). by exists oc.
  - apply fetchOutcodeStats_broken in Hm as ->. by rewrite lookup_empty in He.
Qed.

Lemma coverage_lookup_keys_requested_witness :
  ∃ m, fetchOutcodeStats (Live ayrshire_db) ["ka10"] = Ok m
       ∧ is_Some (m !! "KA10")
       ∧ ∃ oc, oc ∈ ["ka10"] ∧ toUpperCase "KA10" = toUpperCase oc.
Proof.
  eexists. split; [vm_compute; reflexivity|].
  assert (is_Some ((<["KA10" := item_of_row (stats "KA10" (Some 4.5%Q)
                                               (Some 9%Q))]> ∅
                    : gmap string coverage_item) !! "KA10")) as Hsome.
  { rewrite lookup_insert_eq. by eexists. }
  split; [exact Hsome|].
  apply (proj2 (coverage_lookup_keys_requested (Live ayrshire_db) ["ka10"])
           _ "KA10" eq_refl Hsome).
Defined.

(** ** XML escaping *)

Lemma replace_char_ne c rep x s :
  Ascii.eqb x c = false →
  replace_char c rep (String x s) = String x (replace_char c rep s).
Proof. intros H. simpl. by rewrite H. Qed.

Lemma xml_special_false x :
  xml_special x = false →
  Ascii.eqb x "&"%char = false ∧ Ascii.eqb x "<"%char = false
  ∧ Ascii.eqb x ">"%char = false ∧ Ascii.eqb x quote_char = false
  ∧ Ascii.eqb x "'"%char = false.
Proof. unfold xml_special. rewrite !orb_false_iff. tauto. Qed.

Lemma xml_special_true x :
  xml_special x = true →
  x = "&"%char ∨ x = "<"%char ∨ x = ">"%char ∨ x = quote_char ∨ x = "'"%char.
Proof.
  unfold xml_special. rewrite !orb_true_iff, !Ascii.eqb_eq. tauto.
Qed.

Lemma xml_entity_plain x : xml_special x = false → xml_entity x = String x "".
Proof.
  intros (H1 & H2 & H3 & H4 & H5)%xml_special_false.
  unfold xml_entity. by rewrite H1, H2, H3, H4, H5.
Qed.

(** The five replacements act on each character on its own: no replacement
    touches what an earlier one wrote. *)
Lemma xmlEscape_cons x s :
  xmlEscape (String x s) = xml_entity x +:+ xmlEscape s.
Proof.
  destruct (xml_special x) eqn:Hx.
  - apply xml_special_true in Hx as [-> | [-> | [-> | [-> | ->]]]];
      unfold xmlEscape; simpl; rewrite ?app_cons, ?app_empty_l; simpl;
      rewrite ?app_cons, ?app_empty_l; simpl;
      rewrite ?app_cons, ?app_empty_l; simpl;
      rewrite ?app_cons, ?app_empty_l; simpl;
      rewrite ?app_cons, ?app_empty_l; reflexivity.
  - rewrite (xml_entity_plain _ Hx).
    apply xml_special_false in Hx as (H1 & H2 & H3 & H4 & H5).
    unfold xmlEscape. by rewrite !replace_char_ne by done.
Qed.

Lemma xmlEscape_each s : xmlEscape s = escape_each s.
Proof.
  induction s as [|x s IH]; [done|]. by rewrite xmlEscape_cons, IH.
Qed.

Lemma escape_each_app s t :
  escape_each (s +:+ t) = escape_each s +:+ escape_each t.
Proof.
  induction s as [|x s IH]; [done|].
  rewrite app_cons. simpl. by rewrite IH, app_assoc_str.
Qed.

(** X13. [xmlEscape] works character by character: its five successive
    replacements never escape the output of an earlier one, so each of
    [&], [<], [>], the double quote and the apostrophe becomes its entity
    once and every other character is kept; escaping a concatenation is
    concatenating the escaped parts. *)
Theorem xmlEscape_charwise s t :
  xmlEscape s = escape_each s
  ∧ xmlEscape (s +:+ t) = xmlEscape s +:+ xmlEscape t.
Proof.
  split; [apply xmlEscape_each|].
  rewrite !xmlEscape_each. apply escape_each_app.
Qed.

Lemma count_char_app c s t :
  count_char c (s +:+ t) = count_char c s + count_char c t.
Proof.
  induction s as [|x s IH]; [done|]. rewrite app_cons. simpl. rewrite IH. lia.
Qed.

Lemma count_markup_entity c x :
  c = "<"%char ∨ c = ">"%char ∨ c = quote_char ∨ c = "'"%char →
  count_char c (xml_entity x) = 0.
Proof.
  intros Hc. destruct (xml_special x) eqn:Hx.
  - apply xml_special_true in Hx as [-> | [-> | [-> | [-> | ->]]]];
      destruct Hc as [-> | [-> | [-> | ->]]]; reflexivity.
  - rewrite (xml_entity_plain _ Hx). simpl.
    apply xml_special_false in Hx as (H1 & H2 & H3 & H4 & H5).
    destruct Hc as [-> | [-> | [-> | ->]]]; by rewrite ?H2, ?H3, ?H4, ?H5.
Qed.

Lemma count_markup_escape c s :
  c = "<"%char ∨ c = ">"%char ∨ c = quote_char ∨ c = "'"%char →
  count_char c (xmlEscape s) = 0.
Proof.
  intros Hc. rewrite xmlEscape_each.
  induction s as [|x s IH]; [done|]. simpl.
  by rewrite count_char_app, count_markup_entity, IH.
Qed.

(** X14. The output of [xmlEscape] holds no [<], no [>], no double quote and
    no apostrophe, whatever the input. *)
Theorem xmlEscape_no_markup s :
  count_char "<"%char (xmlEscape s) = 0
  ∧ count_char ">"%char (xmlEscape s) = 0
  ∧ count_char quote_char (xmlEscape s) = 0
  ∧ count_char "'"%char (xmlEscape s) = 0.
Proof. split_and!; apply count_markup_escape; tauto. Qed.

Lemma escape_each_length s : String.length s ≤ String.length (escape_each s).
Proof.
  induction s as [|x s IH]; [done|]. simpl. rewrite length_app_str.
  assert (1 ≤ String.length (xml_entity x)); [|lia].
  unfold xml_entity. repeat case_match; simpl; lia.
Qed.

Lemma xml_entity_head x y s t :
  xml_entity x +:+ s = xml_entity y +:+ t → x = y ∧ s = t.
Proof.
  destruct (xml_special x) eqn:Hx, (xml_special y) eqn:Hy.
  - apply xml_special_true in Hx as [-> | [-> | [-> | [-> | ->]]]];
      apply xml_special_true in Hy as [-> | [-> | [-> | [-> | ->]]]];
      vm_compute; intros [=]; by subst.
  - rewrite (xml_entity_plain _ Hy).
    apply xml_special_true in Hx as [-> | [-> | [-> | [-> | ->]]]];
      vm_compute; intros [=]; by subst.
  - rewrite (xml_entity_plain _ Hx).
    apply xml_special_true in Hy as [-> | [-> | [-> | [-> | ->]]]];
      vm_compute; intros [=]; by subst.
  - rewrite (xml_entity_plain _ Hx), (xml_entity_plain _ Hy).
    rewrite !app_cons, !app_empty_l. by intros [= -> ->].
Qed.

Lemma escape_each_inj s t : escape_each s = escape_each t → s = t.
Proof.
  revert t. induction s as [|x s IH]; intros [|y t]; simpl; try done.
  - intros H. apply (f_equal String.length) in H.
    rewrite length_app_str in H. simpl in H.
    assert (1 ≤ String.length (xml_entity y)); [|lia].
    unfold xml_entity. repeat case_match; simpl; lia.
  - intros H. apply (f_equal String.length) in H.
    rewrite length_app_str in H. simpl in H.
    assert (1 ≤ String.length (xml_entity x)); [|lia].
    unfold xml_entity. repeat case_match; simpl; lia.
  - intros [-> Hst]%xml_entity_head. by rewrite (IH _ Hst).
Qed.

(** X15. [xmlEscape] loses nothing: two texts with the same escaped form are
    the same text. *)
Theorem xmlEscape_injective s t : xmlEscape s = xmlEscape t → s = t.
Proof. rewrite !xmlEscape_each. apply escape_each_inj. Qed.

Lemma xmlEscape_injective_witness : "a<b" = "a<b".
Proof. apply (xmlEscape_injective "a<b" "a<b"). vm_compute. reflexivity. Defined.

Lemma escape_each_fixed s :
  escape_each s = s ↔ all_chars (λ c, negb (xml_special c)) s = true.
Proof.
  induction s as [|x s IH]; simpl; [done|].
  destruct (xml_special x) eqn:Hx; simpl.
  - split; [|done]. intros H. exfalso.
    apply (f_equal String.length) in H. rewrite length_app_str in H.
    simpl in H. pose proof (escape_each_length s).
    assert (2 ≤ String.length (xml_entity x)); [|lia].
    apply xml_special_true in Hx as [-> | [-> | [-> | [-> | ->]]]]; vm_compute; lia.
  - rewrite (xml_entity_plain _ Hx), app_cons, app_empty_l, <-IH.
    split; [by intros [= ->]|by intros ->].
Qed.

(** X16. Escaping is not idempotent: escaping an escaped text again gives the
    same text exactly when the original holds none of the five special
    characters, in which case escaping changes nothing at all. *)
Theorem xmlEscape_twice s :
  (xmlEscape (xmlEscape s) = xmlEscape s
   ↔ all_chars (λ c, negb (xml_special c)) s = true)
  ∧ (xmlEscape s = s ↔ all_chars (λ c, negb (xml_special c)) s = true).
Proof.
  assert (xmlEscape s = s ↔ all_chars (λ c, negb (xml_special c)) s = true)
    as Hfix by (rewrite xmlEscape_each; apply escape_each_fixed).
  split; [|done]. rewrite <-Hfix. split.
  - rewrite !xmlEscape_each. apply escape_each_inj.
  - intros H. by rewrite !H.
Qed.

(** ** The XML feed *)

Lemma count_join c xs :
  count_char c newline = 0 →
  count_char c (join newline xs) = sum_list (count_char c <$> xs).
Proof.
  intros Hnl. induction xs as [|x [|y xs] IH]; [done|simpl; lia|].
  change (join newline (x :: y :: xs))
    with (x +:+ newline +:+ join newline (y :: xs)).
  rewrite !count_char_app, Hnl, IH. csimpl. lia.
Qed.

Lemma count_render_job c it :
  c = "<"%char ∨ c = ">"%char ∨ c = quote_char ∨ c = "'"%char →
  count_char c (render_job it)
  = if Ascii.eqb c "<"%char || Ascii.eqb c ">"%char then 20 else 0.
Proof.
  intros Hc. unfold render_job.
  rewrite count_join by (destruct Hc as [-> | [-> | [-> | ->]]]; done).
  unfold element, xmlEscape_value. csimpl.
  rewrite !count_char_app, !count_markup_escape by done.
  destruct Hc as [-> | [-> | [-> | ->]]]; reflexivity.
Qed.

Lemma count_render_jobs c items :
  c = "<"%char ∨ c = ">"%char ∨ c = quote_char ∨ c = "'"%char →
  sum_list (count_char c <$> (render_job <$> items))
  = (if Ascii.eqb c "<"%char || Ascii.eqb c ">"%char then 20 else 0)
    * length items.
Proof.
  intros Hc. induction items as [|it items IH]; [simpl; lia|].
  rewrite !fmap_cons.
  change (sum_list (?a :: ?l)) with (a + sum_list l).
  rewrite IH, count_render_job by done. simpl length. lia.
Qed.

Example xmlEscape_of_values :
  xmlEscape_value (JArray [JString "<"]) = "&lt;"
  ∧ xmlEscape_value (JArray [JString "a&b"; JNull; JNumber "1"])
    = "a&amp;b,,1"
  ∧ xmlEscape_value (JObject []) = "[object Object]"
  ∧ xmlEscape_value (JString "<") = xmlEscape "<"
  ∧ count_char "<"%char (render_xml "google" "2025-09-01" [mixed_item]) = 23.
Proof. repeat split; vm_compute; reflexivity. Qed.

(** X17. The markup of the XML feed does not depend on the data: whatever
    the channel id and the time stamp hold, and whatever value, text or not,
    each field of each job holds, the document has 3 + 20 n characters [<]
    and as many [>] for n jobs, the eight double quotes of its two header
    lines, and no apostrophe.  [xmlEscape] turns a value into text before it
    replaces, so that an array or an object is escaped as its text. *)
Theorem feed_markup_independent_of_data channelId generatedAt items :
  count_char "<"%char (render_xml channelId generatedAt items)
  = 3 + 20 * length items
  ∧ count_char ">"%char (render_xml channelId generatedAt items)
    = 3 + 20 * length items
  ∧ count_char quote_char (render_xml channelId generatedAt items) = 8
  ∧ count_char "'"%char (render_xml channelId generatedAt items) = 0.
Proof.
  unfold render_xml.
  split_and!; rewrite count_join by done; csimpl;
    rewrite fmap_app, sum_list_with_app, count_render_jobs by tauto;
    rewrite !count_char_app, !count_markup_escape by tauto;
    simpl; lia.
Qed.

(** ** Feed format, credits and jobs *)

Lemma or_else_some_empty x : or_else (Some x) "" = x.
Proof. unfold or_else. by case_decide. Qed.






Lemma or_else_nonempty a b : b ≠ "" → or_else a b ≠ "".
Proof. intros Hb. unfold or_else. destruct a; [case_decide|]; done. Qed.

Lemma mapListingTypeToCredit_values l :
  mapListingTypeToCredit l = "Premium"
  ∨ mapListingTypeToCredit l = "Premium Plus".
Proof. unfold mapListingTypeToCredit. case_match; auto. Qed.

(** X20. Whatever a record holds, the adapted job has a title without white
    space at its ends and a credit that is "Premium" or "Premium Plus".  A
    record without recruiter, or whose recruiter has no display name or an
    empty one, gets the recruiter "Jobs in Care"; a record without source,
    or with an empty one, gets the source "user"; a record without URL, or
    with an empty one, has no URL. *)
Theorem adapted_jobs_well_formed todayISO iso_date_of (i : nat) (r : raw_job) :
  trim (job_title (adapt_job todayISO iso_date_of i r))
  = job_title (adapt_job todayISO iso_date_of i r)
  ∧ (job_credit (adapt_job todayISO iso_date_of i r) = "Premium"
     ∨ job_credit (adapt_job todayISO iso_date_of i r) = "Premium Plus")
  ∧ (or_else (rj_recruiter r ≫= displayName) "" = "" →
     job_recruiter (adapt_job todayISO iso_date_of i r) = "Jobs in Care")
  ∧ (or_else (rj_source r) "" = "" →
     job_source (adapt_job todayISO iso_date_of i r) = "user")
  ∧ (or_else (rj_url r) "" = "" →
     job_url (adapt_job todayISO iso_date_of i r) = None).
Proof.
  simpl. split_and!.
  - apply trim_idem.
  - apply mapListingTypeToCredit_values.
  - destruct (rj_recruiter r ≫= displayName) as [d|]; [|done].
    rewrite or_else_some_empty. by intros ->.
  - destruct (rj_source r) as [d|]; [|done].
    rewrite or_else_some_empty. by intros ->.
  - destruct (rj_url r) as [d|]; [|done].
    rewrite or_else_some_empty. by intros ->.
Qed.

Lemma adapted_jobs_well_formed_witness :
  job_recruiter (adapt_job "2025-09-01" (λ s, Some s) 0 untidy_record)
  = "Jobs in Care"
  ∧ job_source (adapt_job "2025-09-01" (λ s, Some s) 0 untidy_record) = "user"
  ∧ job_url (adapt_job "2025-09-01" (λ s, Some s) 0 untidy_record) = None.
Proof.
  pose proof (adapted_jobs_well_formed "2025-09-01" (λ s, Some s) 0
                untidy_record) as (_ & _ & Hr & Hs & Hu).
  split; [exact (Hr eq_refl)|]. split; [exact (Hs eq_refl)|exact (Hu eq_refl)].
Defined.

(** X21. A record's own id is kept as it is; a record without id gets the id
    "ext-" followed by its position counted from 1, so that two records
    without id never get the same id. *)
Theorem adapted_ids todayISO iso_date_of (i i' : nat) (a b : raw_job) :
  (∀ id, rj_id a = Some id →
         job_id (adapt_job todayISO iso_date_of i a) = id)
  ∧ (rj_id a = None →
     job_id (adapt_job todayISO iso_date_of i a) = "ext-" +:+ pretty (i + 1))
  ∧ (rj_id a = None → rj_id b = None → i ≠ i' →
     job_id (adapt_job todayISO iso_date_of i a)
     ≠ job_id (adapt_job todayISO iso_date_of i' b)).
Proof.
  simpl. split_and!.
  - by intros id ->.
  - by intros ->.
  - intros -> -> Hne Heq. simpl in Heq.
    apply (inj (String.app "ext-")), (inj pretty) in Heq. lia.
Qed.

Lemma adapted_ids_witness :
  job_id (adapt_job "2025-09-01" (λ s, Some s) 0 bare_record)
  ≠ job_id (adapt_job "2025-09-01" (λ s, Some s) 1 bare_record).
Proof.
  apply (proj2 (proj2 (adapted_ids "2025-09-01" (λ s, Some s) 0 1
                         bare_record bare_record)));
    [reflexivity|reflexivity|lia].
Defined.

(** X22. A record without source counts as a user job: adapted, it passes
    the source filter whenever the configured filter reads "user", in any
    letter case and with any white space around it; and a blank filter
    keeps every job. *)
Theorem sourceless_jobs_pass_user_filter todayISO iso_date_of st raw_jobs :
  (trim (or_else (global_sourceFilter st) "") = "" →
   ∀ all, filter_by_source st all = all)
  ∧ (toLowerCase (trim (or_else (global_sourceFilter st) "")) = "user" →
     ∀ i r, default [] raw_jobs !! i = Some r →
            or_else (rj_source r) "" = "" →
            adapt_job todayISO iso_date_of i r
            ∈ filter_by_source st
                (adaptFromJobsInCare todayISO iso_date_of raw_jobs)).
Proof.
  unfold filter_by_source. split.
  - intros ->. done.
  - intros Huser i r Hr Hsrc. rewrite decide_False by (by intros Heq; rewrite Heq in Huser).
    apply list_elem_of_filter. split.
    + rewrite Huser. simpl.
      unfold or_else in *. destruct (rj_source r) as [s|]; [|done].
      by case_decide; subst.
    + unfold adaptFromJobsInCare. apply elem_of_lookup_imap. eauto.
Qed.

Lemma sourceless_jobs_pass_user_filter_witness :
  adapt_job "2025-09-01" (λ s, Some s) 0 bare_record
  ∈ filter_by_source user_filter_settings
      (adaptFromJobsInCare "2025-09-01" (λ s, Some s) (Some [bare_record])).
Proof.
  apply (proj2 (sourceless_jobs_pass_user_filter "2025-09-01" (λ s, Some s)
                  user_filter_settings (Some [bare_record]))
           eq_refl 0 bare_record eq_refl eq_refl).
Defined.

(** ** The feed path's outcode *)

Lemma all_chars_remove_spaces P s :
  all_chars P s = true → all_chars P (remove_spaces s) = true.
Proof.
  induction s as [|c s IH]; simpl; [done|].
  intros [Hc Hs]%andb_prop. destruct (Char.is_space c); simpl; [auto|].
  by rewrite Hc, IH.
Qed.

Lemma remove_spaces_length s :
  String.length (remove_spaces s) ≤ String.length s.
Proof.
  induction s as [|c s IH]; simpl; [done|].
  destruct (Char.is_space c); simpl; lia.
Qed.

Lemma all_chars_slice_to P n s :
  all_chars P s = true → all_chars P (slice_to n s) = true.
Proof.
  revert s. induction n as [|n IH]; intros [|c s]; simpl; try done.
  intros [Hc Hs]%andb_prop. by rewrite Hc, IH.
Qed.

(** X23. Whatever it is given, [deriveOutcodeFromPostcode] answers a text
    without a letter a to z in lower case that is no longer than the text it
    works on, the upper-cased input trimmed. *)
Theorem derived_outcode_upper_and_short postcode :
  all_chars not_lower (deriveOutcodeFromPostcode postcode) = true
  ∧ String.length (deriveOutcodeFromPostcode postcode)
    ≤ String.length (trim (toUpperCase postcode)).
Proof.
  unfold deriveOutcodeFromPostcode.
  case_decide as Hempty; [subst; split; [done|simpl; lia]|].
  cbv zeta.
  set (raw := trim (toUpperCase postcode)).
  assert (all_chars not_lower raw = true) as Hraw
    by (subst raw; rewrite trim_upper; apply toUpperCase_no_lower).
  destruct (match_atoms DERIVE_REGEX (remove_spaces raw) ≫= group1)
    as [g|] eqn:Hm.
  - destruct (match_atoms DERIVE_REGEX _) as [gs|] eqn:Hgs; [|done].
    simpl in Hm. apply derive_regex_sound in Hgs as (g1 & g2 & Heq & Hg & _).
    assert (g = g1) as -> by congruence.
    pose proof (all_chars_remove_spaces _ _ Hraw) as Hns.
    pose proof (remove_spaces_length raw) as Hlen.
    rewrite Heq in Hns, Hlen. rewrite all_chars_app in Hns.
    rewrite length_app_str in Hlen.
    apply andb_prop in Hns as [-> _]. split; [done|lia].
  - assert (∀ n, all_chars not_lower (slice_to n raw) = true
                 ∧ String.length (slice_to n raw) ≤ String.length raw) as Hcut.
    { intros n. split; [by apply all_chars_slice_to|].
      rewrite slice_to_length. lia. }
    destruct (indexOf_space raw) as [[|sp]|]; [case_match| |case_match]; auto.
Qed.

(** ** Where outcodes come from *)

Lemma trimStart_head s c t :
  trimStart s = String c t → Char.is_space c = false.
Proof.
  induction s as [|x s IH]; simpl; [done|].
  destruct (Char.is_space x) eqn:Hx; [done|]. by intros [= <- _].
Qed.

Lemma trimEnd_head s c t : trimEnd s = String c t → ∃ t', s = String c t'.
Proof.
  destruct s as [|x s]; simpl; [done|].
  destruct (trimEnd s); [destruct (Char.is_space x)|]; intros [= <- _]; eauto.
Qed.

Lemma trim_head s c t : trim s = String c t → Char.is_space c = false.
Proof. unfold trim. intros [t' H]%trimEnd_head. by eapply trimStart_head. Qed.

Lemma indexOf_space_first pre rest :
  count_char " "%char pre = 0 →
  indexOf_space (pre +:+ String " "%char rest) = Some (String.length pre).
Proof.
  induction pre as [|c pre IH]; [done|]. rewrite app_cons. simpl.
  destruct (Ascii.eqb c " "%char); [done|]. intros Hc. by rewrite IH.
Qed.

Lemma indexOf_space_absent s :
  count_char " "%char s = 0 → indexOf_space s = None.
Proof.
  induction s as [|c s IH]; simpl; [done|].
  destruct (Ascii.eqb c " "%char); [done|]. intros Hc. by rewrite IH.
Qed.

Lemma derive_fits_split gs :
  Forall2 fits DERIVE_REGEX gs →
  ∃ g1 g2, concat_all gs = g1 +:+ g2 ∧ group1 gs = Some g1
           ∧ String.length g2 = 3.
Proof.
  intros Hfits. destruct (match_atoms_complete _ _ Hfits) as [gs' Hgs'].
  unfold DERIVE_REGEX in Hfits.
  apply Forall2_cons_inv_l in Hfits as (a & ? & [??] & Hfits & ->).
  apply Forall2_cons_inv_l in Hfits as (b & ? & [??] & Hfits & ->).
  apply Forall2_cons_inv_l in Hfits as (c & ? & [??] & Hfits & ->).
  apply Forall2_cons_inv_l in Hfits as (d & ? & [??] & Hfits & ->).
  apply Forall2_cons_inv_l in Hfits as (e & ? & [??] & Hfits & ->).
  apply Forall2_nil_inv_l in Hfits as ->.
  exists (a +:+ b +:+ c), (d +:+ e). split_and!.
  - unfold concat_all. simpl. by rewrite app_empty_r, !app_assoc_str.
  - done.
  - rewrite length_app_str. lia.
Qed.

Lemma derive_capture s gs :
  Forall2 fits DERIVE_REGEX gs → s = concat_all gs →
  match_atoms DERIVE_REGEX s ≫= group1 = group1 gs.
Proof.
  intros Hfits ->.
  destruct (match_atoms_complete _ _ Hfits) as [gs' Hgs']. rewrite Hgs'.
  destruct (derive_regex_sound _ _ Hgs') as (g1' & g2' & Heq' & Hg' & Hl').
  destruct (derive_fits_split _ Hfits) as (g1 & g2 & Heq & Hg & Hl).
  csimpl. rewrite Hg', Hg. f_equal.
  eapply app_inj_suffix_length; [by rewrite <-Heq', <-Heq|lia].
Qed.

Lemma derive_no_match s :
  (¬ ∃ gs, Forall2 fits DERIVE_REGEX gs ∧ s = concat_all gs) →
  match_atoms DERIVE_REGEX s = None.
Proof.
  intros Hno. destruct (match_atoms DERIVE_REGEX s) as [gs|] eqn:Hm; [|done].
  destruct Hno. apply match_atoms_sound in Hm as [? ?]. eauto.
Qed.

(** C9, as stated, fails on the feed path: "Ayrshire" is no postcode (the
    pattern does not match its upper-cased text), yet
    [deriveOutcodeFromPostcode] answers "AYRSH", the input cut short by three
    characters; "North Ayrshire" is cut at its first space. *)
Lemma derive_truncates_free_text :
  match_atoms DERIVE_REGEX (remove_spaces (trim (toUpperCase "Ayrshire")))
  = None
  ∧ deriveOutcodeFromPostcode "Ayrshire" = "AYRSH"
  ∧ deriveOutcodeFromPostcode "North Ayrshire" = "NORTH".
Proof. repeat split; vm_compute; reflexivity. Qed.

(** C9, amended. [resolveTargeting] never produces an outcode by cutting the
    input: each returned outcode is the whole outcode portion of the input
    read as a full postcode (the trimmed, upper-cased input is that
    postcode), or the exact POSTCODE_DISTRICT value of a row of the reference
    table.  [deriveOutcodeFromPostcode] works on the upper-cased, trimmed
    input.  When that text, its white space removed, matches the pattern, the
    answer is the captured outcode portion.  When it does not, the answer is
    the text before the first space if the text has a space; else the text
    without its last three characters if it has more than three; else the
    whole text. *)
Theorem outcodes_never_truncated_by_resolver :
  (∀ p input r oc,
     resolveTargeting p input = Ok r → oc ∈ postal_codes r →
     (∃ q, well_formed_postcode q = true
           ∧ toUpperCase (trim input) = postcode_text q
           ∧ oc = postcode_outcode q)
     ∨ ∃ db row, p = Live db ∧ row ∈ os_open_names db
                 ∧ POSTCODE_DISTRICT row = Some oc)
  ∧ (∀ postcode,
       let raw := trim (toUpperCase postcode) in
       (∀ gs, Forall2 fits DERIVE_REGEX gs →
              remove_spaces raw = concat_all gs →
              group1 gs = Some (deriveOutcodeFromPostcode postcode))
       ∧ ((¬ ∃ gs, Forall2 fits DERIVE_REGEX gs
                   ∧ remove_spaces raw = concat_all gs) →
          (∀ pre rest,
             raw = pre +:+ " " +:+ rest → count_char " "%char pre = 0 →
             deriveOutcodeFromPostcode postcode = pre)
          ∧ (count_char " "%char raw = 0 → 3 < String.length raw →
             ∃ tail, raw = deriveOutcodeFromPostcode postcode +:+ tail
                     ∧ String.length tail = 3)
          ∧ (count_char " "%char raw = 0 → String.length raw ≤ 3 →
             deriveOutcodeFromPostcode postcode = raw))).
Proof.
  split.
  - intros p input r oc (ocs & cov & Hc & ->)%resolveTargeting_inv Hoc.
    simpl in Hoc. apply (proj1 (sort_elem _ _)) in Hoc.
    destruct (collect_source _ _ _ _ _ Hc Hoc) as [Hpc|(_ & db & -> & Hsel)].
    + left. by apply extractOutcodeFromPostcode_inv.
    + right. apply select_area_outcodes_sound in Hsel as (row & ? & ? & _).
      by exists db, row.
  - intros postcode. cbv zeta.
    unfold deriveOutcodeFromPostcode. cbv zeta.
    remember (trim (toUpperCase postcode)) as raw eqn:Hraw.
    split.
    + intros gs Hfits Hns. rewrite (derive_capture _ _ Hfits Hns).
      destruct (group1 gs) as [g|] eqn:Hg.
      * case_decide as Hempty; [|done]. subst postcode raw.
        destruct (derive_fits_split _ Hfits) as (g1 & g2 & Heq & _ & Hl).
        rewrite <-Hns in Heq. apply (f_equal String.length) in Heq.
        rewrite length_app_str in Heq. simpl in Heq. lia.
      * destruct (derive_fits_split _ Hfits) as (? & ? & _ & ? & _).
        congruence.
    + intros Hno%derive_no_match. rewrite Hno. csimpl. split_and!.
      * intros pre rest -> Hpre.
        change (" " +:+ rest) with (String " "%char rest) in *.
        case_decide as Hempty.
        { subst postcode. by destruct pre. }
        rewrite indexOf_space_first by done.
        destruct pre as [|c pre].
        { rewrite app_empty_l in Hraw. symmetry in Hraw.
          by apply trim_head in Hraw. }
        exact (slice_to_app (String c pre) (String " "%char rest)).
      * intros Hnsp Hlen. case_decide as Hempty.
        { subst postcode raw. simpl in Hlen. lia. }
        rewrite indexOf_space_absent by done.
        rewrite (proj2 (Nat.ltb_lt _ _)) by done.
        destruct (slice_to_prefix (String.length raw - 3) raw) as [tail Ht].
        exists tail. split; [exact Ht|].
        apply (f_equal String.length) in Ht.
        rewrite length_app_str, slice_to_length in Ht. lia.
      * intros Hnsp Hlen. case_decide as Hempty.
        { by subst postcode raw. }
        rewrite indexOf_space_absent by done.
        by rewrite (proj2 (Nat.ltb_ge _ _)) by done.
Qed.

Lemma outcodes_never_truncated_by_resolver_witness :
  (∃ r, resolveTargeting (Live ayrshire_db) "Ayrshire" = Ok r
        ∧ ((∃ q, well_formed_postcode q = true
                 ∧ toUpperCase (trim "Ayrshire") = postcode_text q
                 ∧ "KA10" = postcode_outcode q)
           ∨ ∃ db row, Live ayrshire_db = Live db ∧ row ∈ os_open_names db
                       ∧ POSTCODE_DISTRICT row = Some "KA10"))
  ∧ deriveOutcodeFromPostcode "North Ayrshire" = "NORTH"
  ∧ ∃ tail, "AYRSHIRE" = deriveOutcodeFromPostcode "Ayrshire" +:+ tail
            ∧ String.length tail = 3.
Proof.
  assert (∀ s, match_atoms DERIVE_REGEX s = None →
               ¬ ∃ gs, Forall2 fits DERIVE_REGEX gs ∧ s = concat_all gs)
    as Hnone.
  { intros s Hs (gs & Hf & ->). apply match_atoms_complete in Hf.
    rewrite Hs in Hf. by destruct Hf. }
  split; [|split].
  - eexists. split; [vm_compute; reflexivity|].
    apply (proj1 outcodes_never_truncated_by_resolver
             (Live ayrshire_db) "Ayrshire" _ "KA10" eq_refl).
    vm_compute. set_solver.
  - refine (proj1 (proj2 (proj2 outcodes_never_truncated_by_resolver
                            "North Ayrshire") (Hnone _ _))
              "NORTH" "AYRSHIRE" _ _); vm_compute; reflexivity.
  - refine (proj1 (proj2 (proj2 (proj2 outcodes_never_truncated_by_resolver
                                   "Ayrshire") (Hnone _ _))) _ _);
      vm_compute; first [reflexivity|lia].
Defined.
